(** * Four-way intersection controller (cruzamento-quatro-vias.c)

    Shallow embedding of the shared intersection state [Cruzamento], the
    admission predicate [pode_passar], the dynamic window computation of the
    controller thread [fluxo_trafego], and the three kinds of threads (cars,
    ambulances, controller) as an interleaving step relation.

    Modelling choices:
    - every critical section (code between [pthread_mutex_lock] and
      [pthread_mutex_unlock] or [pthread_cond_wait]) is one atomic step;
    - a thread blocked in [pthread_cond_wait] is a thread whose step is
      [None] until its loop condition changes; since POSIX allows spurious
      wake-ups, a waiting thread may re-check its condition at any time, so
      "may step whenever the condition holds" is exactly the code's behaviour;
    - [sleep] calls are abstracted away: the model is untimed;
    - [int] counters are mathematical integers (they are bounded by the
      number of threads, far from the 32-bit limits);
    - the thread id counters and [lock_rand] only feed the [printf]s and the
      random sleeps and are not modelled. *)

From Stdlib Require Import ZArith List Bool Lia.
From Stdlib Require Import Floats.SpecFloat.
Import ListNotations.
Open Scope Z_scope.

(** ** Enumerations *)

(** [typedef enum Direcao { NORTE, SUL, LESTE, OESTE, NUM_DIRECOES }]: a C
    enum is an [int], so a direction is an integer. *)
Definition Direcao := Z.
Definition NORTE : Direcao := 0.
Definition SUL : Direcao := 1.
Definition LESTE : Direcao := 2.
Definition OESTE : Direcao := 3.
Definition NUM_DIRECOES : Direcao := 4.

Inductive EstadoFluxo := FLUXO_NS | FLUXO_LO | AMBULANCIA_NS | AMBULANCIA_LO.

Inductive TipoVeiculo := TIPO_CARRO | TIPO_AMBULANCIA.

Definition EstadoFluxo_eqb (a b : EstadoFluxo) : bool :=
  match a, b with
  | FLUXO_NS, FLUXO_NS | FLUXO_LO, FLUXO_LO
  | AMBULANCIA_NS, AMBULANCIA_NS | AMBULANCIA_LO, AMBULANCIA_LO => true
  | _, _ => false
  end.

Definition TipoVeiculo_eqb (a b : TipoVeiculo) : bool :=
  match a, b with
  | TIPO_CARRO, TIPO_CARRO | TIPO_AMBULANCIA, TIPO_AMBULANCIA => true
  | _, _ => false
  end.

(** ** Shared state: [struct Cruzamento] (mutexes and id counters left out) *)

Record Cruzamento := mkCruzamento {
  carros_esperando : list Z;          (* int[NUM_DIRECOES] *)
  ambulancias_esperando : list Z;     (* int[NUM_DIRECOES] *)
  carros_no_cruzamento : Z;
  ambulancias_no_cruzamento : Z;
  modo_emergencia : bool;
  estado_atual : EstadoFluxo
}.

(** Array read [a[d]]. *)
Definition ler (a : list Z) (d : Direcao) : Z := nth (Z.to_nat d) a 0.

(** Array write [a[d] = v]; the threads only ever index with the four
    directions created by [main], so out-of-range writes never happen (the
    list is left unchanged there). *)
Fixpoint escrever_nat (a : list Z) (n : nat) (v : Z) : list Z :=
  match a, n with
  | [], _ => []
  | _ :: t, O => v :: t
  | x :: t, S n' => x :: escrever_nat t n' v
  end.

Definition escrever (a : list Z) (d : Direcao) (v : Z) : list Z :=
  escrever_nat a (Z.to_nat d) v.

Definition set_carros_esperando (c : Cruzamento) (a : list Z) : Cruzamento :=
  mkCruzamento a (ambulancias_esperando c) (carros_no_cruzamento c)
    (ambulancias_no_cruzamento c) (modo_emergencia c) (estado_atual c).
Definition set_ambulancias_esperando (c : Cruzamento) (a : list Z) : Cruzamento :=
  mkCruzamento (carros_esperando c) a (carros_no_cruzamento c)
    (ambulancias_no_cruzamento c) (modo_emergencia c) (estado_atual c).
Definition set_carros_no_cruzamento (c : Cruzamento) (n : Z) : Cruzamento :=
  mkCruzamento (carros_esperando c) (ambulancias_esperando c) n
    (ambulancias_no_cruzamento c) (modo_emergencia c) (estado_atual c).
Definition set_ambulancias_no_cruzamento (c : Cruzamento) (n : Z) : Cruzamento :=
  mkCruzamento (carros_esperando c) (ambulancias_esperando c)
    (carros_no_cruzamento c) n (modo_emergencia c) (estado_atual c).
Definition set_modo_emergencia (c : Cruzamento) (b : bool) : Cruzamento :=
  mkCruzamento (carros_esperando c) (ambulancias_esperando c)
    (carros_no_cruzamento c) (ambulancias_no_cruzamento c) b (estado_atual c).
Definition set_estado_atual (c : Cruzamento) (e : EstadoFluxo) : Cruzamento :=
  mkCruzamento (carros_esperando c) (ambulancias_esperando c)
    (carros_no_cruzamento c) (ambulancias_no_cruzamento c) (modo_emergencia c) e.

(** ** [pode_passar]

    The C function reads the global [cruzamento.modo_emergencia]; here that
    flag is an explicit first argument.  The result [int] 0/1 is a [bool]. *)
Definition pode_passar (modo_emergencia : bool) (dir : Direcao)
    (estado : EstadoFluxo) (tipo : TipoVeiculo) : bool :=
  (* if(estado == AMBULANCIA_NS || estado == AMBULANCIA_LO)
       if(tipo != TIPO_AMBULANCIA) return 0; *)
  if (EstadoFluxo_eqb estado AMBULANCIA_NS || EstadoFluxo_eqb estado AMBULANCIA_LO)
     && negb (TipoVeiculo_eqb tipo TIPO_AMBULANCIA) then false
  (* if(cruzamento.modo_emergencia && tipo == TIPO_CARRO) return 0; *)
  else if modo_emergencia && TipoVeiculo_eqb tipo TIPO_CARRO then false
  else if (Z.eqb dir NORTE || Z.eqb dir SUL)
          && (EstadoFluxo_eqb estado FLUXO_NS || EstadoFluxo_eqb estado AMBULANCIA_NS)
  then true
  else if (Z.eqb dir LESTE || Z.eqb dir OESTE)
          && (EstadoFluxo_eqb estado FLUXO_LO || EstadoFluxo_eqb estado AMBULANCIA_LO)
  then true
  else false.

(** ** Dynamic window duration (normal branch of [fluxo_trafego])

    [T_BASE] and [FATOR_CARRO] are [double] literals, the arithmetic
    [T_BASE + ((num_carros - 1) * FATOR_CARRO)] is done in binary64, the
    result is stored in the [float] variable [tempo_calculado] (rounded to
    binary32) and then truncated by the [(int)] cast.  IEEE arithmetic with
    round-to-nearest-even is the one of [SpecFloat]. *)

Definition prec64 : Z := 53.
Definition emax64 : Z := 1024.
Definition prec32 : Z := 24.
Definition emax32 : Z := 128.

(** [(double) z] for an [int] (exact for 32-bit values). *)
Definition double_of_int (z : Z) : spec_float :=
  binary_normalize prec64 emax64 z 0 false.

(** The literals 1.8 and 2.2, correctly rounded to binary64. *)
Definition T_BASE : spec_float :=
  SFdiv prec64 emax64 (double_of_int 18) (double_of_int 10).
Definition FATOR_CARRO : spec_float :=
  SFdiv prec64 emax64 (double_of_int 22) (double_of_int 10).

Definition T_MINIMO : Z := 5.
Definition T_MAXIMO : Z := 20.

(** Conversion of a [double] to [float] (round to nearest even). *)
Definition float_of_double (x : spec_float) : spec_float :=
  match x with
  | S754_finite s m e => binary_round prec32 emax32 s m e
  | _ => x
  end.

(** The [(int)] cast: truncation toward zero.  A NaN or an infinity (which
    cannot arise from the demands of the program) is undefined behaviour in
    C; it is mapped to 0 here. *)
Definition int_of_float (x : spec_float) : Z :=
  match x with
  | S754_finite s m e =>
      let a := if Z.leb 0 e then Z.shiftl (Zpos m) e else Z.shiftr (Zpos m) (- e) in
      if s then - a else a
  | _ => 0
  end.

(** [if(num_carros > 0) tempo_calculado = T_BASE + ((num_carros - 1) * FATOR_CARRO);
     else tempo_calculado = T_BASE;] *)
Definition tempo_calculado (num_carros : Z) : spec_float :=
  float_of_double
    (if Z.ltb 0 num_carros
     then SFadd prec64 emax64 T_BASE
            (SFmul prec64 emax64 (double_of_int (num_carros - 1)) FATOR_CARRO)
     else T_BASE).

(** [tempo_final = (int) tempo_calculado;] followed by the clamp
    [if(tempo_final > T_MAXIMO) ... else if (tempo_final < T_MINIMO) ...]. *)
Definition tempo_final (num_carros : Z) : Z :=
  let t := int_of_float (tempo_calculado num_carros) in
  if Z.gtb t T_MAXIMO then T_MAXIMO
  else if Z.ltb t T_MINIMO then T_MINIMO
  else t.

(** ** Axis decisions of [fluxo_trafego] *)

(** Normal branch: [if(demanda_ns >= demanda_lo) { FLUXO_NS; num_carros = demanda_ns }
    else { FLUXO_LO; num_carros = demanda_lo }]. *)
Definition decide_normal (demanda_ns demanda_lo : Z) : EstadoFluxo * Z :=
  if Z.geb demanda_ns demanda_lo then (FLUXO_NS, demanda_ns)
  else (FLUXO_LO, demanda_lo).

(** Emergency branch: [if(demanda_amb_ns >= demanda_amb_lo) AMBULANCIA_NS
    else AMBULANCIA_LO]. *)
Definition decide_emergencia (demanda_amb_ns demanda_amb_lo : Z) : EstadoFluxo :=
  if Z.geb demanda_amb_ns demanda_amb_lo then AMBULANCIA_NS else AMBULANCIA_LO.

(** ** Threads *)

(** Program point of a vehicle thread inside its [while(1)] loop.
    - [Aproximando]: before the loop body's first [pthread_mutex_lock]
      (a car approaching, an ambulance about to announce its emergency);
    - [Carencia]: ambulance only, in the [sleep(1)] after the announcement;
    - [Esperando]: blocked in [pthread_cond_wait] of the admission loop;
    - [Atravessando]: inside the intersection ([sleep(3)] / [sleep(2)]). *)
Inductive PcVeiculo := Aproximando | Carencia | Esperando | Atravessando.

Record Veiculo := mkVeiculo {
  tipo : TipoVeiculo;
  direcao : Direcao;
  pc : PcVeiculo
}.

(** Program point of the controller thread [fluxo_trafego].
    - [CtlInicio]: top of [while(1)], before [pthread_mutex_lock];
    - [CtlEmDreno]: waiting in the emergency branch until no car is crossing;
    - [CtlEmEspera]: passive wait [while(cruzamento.modo_emergencia)];
    - [CtlNormDreno]: waiting in the normal branch until no car is crossing;
    - [CtlJanela p i tf]: in the [for(i = 0; i < tempo_final; i++)] window
      loop of flow [proximo_estado = p]. *)
Inductive PcControlador :=
| CtlInicio
| CtlEmDreno
| CtlEmEspera
| CtlNormDreno
| CtlJanela (proximo_estado : EstadoFluxo) (i tf : Z).

Record Mundo := mkMundo {
  cruzamento : Cruzamento;
  controlador : PcControlador;
  veiculos : list Veiculo
}.

Inductive Ator := Controlador | Veic (n : nat).

(** ** Controller steps *)

Definition demanda (a : list Z) (d1 d2 : Direcao) : Z := ler a d1 + ler a d2.

(** Emergency branch after its drain loop: decide the ambulance flow, set
    [estado_atual], broadcast, then [while(cruzamento.modo_emergencia)
    pthread_cond_wait]: the controller goes on at once if the flag is already
    false. *)
Definition ctl_decide_emergencia (c : Cruzamento) : Cruzamento * PcControlador :=
  let p := decide_emergencia (demanda (ambulancias_esperando c) NORTE SUL)
                             (demanda (ambulancias_esperando c) LESTE OESTE) in
  let c' := set_estado_atual c p in
  (c', if modo_emergencia c' then CtlEmEspera else CtlInicio).

(** Normal branch after its drain loop: decide the car flow, set
    [estado_atual], compute [tempo_final], broadcast, unlock, enter the
    window loop. *)
Definition ctl_decide_normal (c : Cruzamento) : Cruzamento * PcControlador :=
  let '(p, num_carros) :=
    decide_normal (demanda (carros_esperando c) NORTE SUL)
                  (demanda (carros_esperando c) LESTE OESTE) in
  (set_estado_atual c p, CtlJanela p 0 (tempo_final num_carros)).

(** One atomic step of the controller; [None] when it is blocked in a
    [pthread_cond_wait] whose loop condition still holds. *)
Definition passo_controlador (c : Cruzamento) (p : PcControlador)
    : option (Cruzamento * PcControlador) :=
  match p with
  | CtlInicio =>
      if modo_emergencia c then
        if Z.gtb (carros_no_cruzamento c) 0 then Some (c, CtlEmDreno)
        else Some (ctl_decide_emergencia c)
      else
        if Z.gtb (carros_no_cruzamento c) 0 then Some (c, CtlNormDreno)
        else Some (ctl_decide_normal c)
  | CtlEmDreno =>
      if Z.gtb (carros_no_cruzamento c) 0 then None
      else Some (ctl_decide_emergencia c)
  | CtlEmEspera =>
      if modo_emergencia c then None else Some (c, CtlInicio)
  | CtlNormDreno =>
      if Z.gtb (carros_no_cruzamento c) 0 then None
      else Some (ctl_decide_normal c)
  | CtlJanela prox i tf =>
      if Z.ltb i tf then
        let esp := carros_esperando c in
        let fila_ativa_esvaziou :=
          match prox with
          | FLUXO_NS => Z.eqb (ler esp NORTE) 0 && Z.eqb (ler esp SUL) 0
          | _ => Z.eqb (ler esp LESTE) 0 && Z.eqb (ler esp OESTE) 0
          end in
        if fila_ativa_esvaziou then Some (c, CtlInicio)
        else Some (c, CtlJanela prox (i + 1) tf)
      else Some (c, CtlInicio)
  end.

(** ** Vehicle steps *)

(** [carros_esperando[d]--; carros_no_cruzamento++;] *)
Definition carro_entra (c : Cruzamento) (d : Direcao) : Cruzamento :=
  set_carros_no_cruzamento
    (set_carros_esperando c (escrever (carros_esperando c) d (ler (carros_esperando c) d - 1)))
    (carros_no_cruzamento c + 1).

(** [carros_no_cruzamento--;] *)
Definition carro_sai (c : Cruzamento) : Cruzamento :=
  set_carros_no_cruzamento c (carros_no_cruzamento c - 1).

(** [ambulancias_esperando[d]--; ambulancias_no_cruzamento++;] *)
Definition ambulancia_entra (c : Cruzamento) (d : Direcao) : Cruzamento :=
  set_ambulancias_no_cruzamento
    (set_ambulancias_esperando c
       (escrever (ambulancias_esperando c) d (ler (ambulancias_esperando c) d - 1)))
    (ambulancias_no_cruzamento c + 1).

(** [ambulancias_no_cruzamento--; modo_emergencia = false;] *)
Definition ambulancia_sai (c : Cruzamento) : Cruzamento :=
  set_modo_emergencia
    (set_ambulancias_no_cruzamento c (ambulancias_no_cruzamento c - 1)) false.

(** One atomic step of a vehicle thread ([carros] or [ambulancia]). *)
Definition passo_veiculo (c : Cruzamento) (v : Veiculo)
    : option (Cruzamento * PcVeiculo) :=
  let d := direcao v in
  match tipo v, pc v with
  (* lock; carros_esperando[d]++; while(!pode_passar(...)) wait; ... *)
  | TIPO_CARRO, Aproximando =>
      let c1 := set_carros_esperando c
                  (escrever (carros_esperando c) d (ler (carros_esperando c) d + 1)) in
      if pode_passar (modo_emergencia c1) d (estado_atual c1) TIPO_CARRO
      then Some (carro_entra c1 d, Atravessando)
      else Some (c1, Esperando)
  | TIPO_CARRO, Esperando =>
      if pode_passar (modo_emergencia c) d (estado_atual c) TIPO_CARRO
      then Some (carro_entra c d, Atravessando)
      else None
  | TIPO_CARRO, Atravessando => Some (carro_sai c, Aproximando)
  | TIPO_CARRO, Carencia => None
  (* lock; modo_emergencia = true; broadcast; unlock; sleep(1) *)
  | TIPO_AMBULANCIA, Aproximando => Some (set_modo_emergencia c true, Carencia)
  (* lock; ambulancias_esperando[d]++; while(!pode_passar(...)) wait; ... *)
  | TIPO_AMBULANCIA, Carencia =>
      let c1 := set_ambulancias_esperando c
                  (escrever (ambulancias_esperando c) d (ler (ambulancias_esperando c) d + 1)) in
      if pode_passar (modo_emergencia c1) d (estado_atual c1) TIPO_AMBULANCIA
      then Some (ambulancia_entra c1 d, Atravessando)
      else Some (c1, Esperando)
  | TIPO_AMBULANCIA, Esperando =>
      if pode_passar (modo_emergencia c) d (estado_atual c) TIPO_AMBULANCIA
      then Some (ambulancia_entra c d, Atravessando)
      else None
  | TIPO_AMBULANCIA, Atravessando => Some (ambulancia_sai c, Aproximando)
  end.

(** [vs[n] := v] *)
Fixpoint substituir {A} (l : list A) (n : nat) (x : A) : list A :=
  match l, n with
  | [], _ => []
  | _ :: t, O => x :: t
  | y :: t, S n' => y :: substituir t n' x
  end.

(** One step of the whole program by actor [a]. *)
Definition passo (w : Mundo) (a : Ator) : option Mundo :=
  match a with
  | Controlador =>
      match passo_controlador (cruzamento w) (controlador w) with
      | Some (c', p') => Some (mkMundo c' p' (veiculos w))
      | None => None
      end
  | Veic n =>
      match nth_error (veiculos w) n with
      | Some v =>
          match passo_veiculo (cruzamento w) v with
          | Some (c', p') =>
              Some (mkMundo c' (controlador w)
                      (substituir (veiculos w) n (mkVeiculo (tipo v) (direcao v) p')))
          | None => None
          end
      | None => None
      end
  end.

(** ** Initial state and population of [main] *)

Definition cruzamento_inicial : Cruzamento :=
  mkCruzamento [0; 0; 0; 0] [0; 0; 0; 0] 0 0 false FLUXO_NS.

Definition mundo_inicial (pop : list (TipoVeiculo * Direcao)) : Mundo :=
  mkMundo cruzamento_inicial CtlInicio
    (map (fun td => mkVeiculo (fst td) (snd td) Aproximando) pop).

(** Threads created by [main], in creation order ([veiculos_t]). *)
Definition populacao_main : list (TipoVeiculo * Direcao) :=
  repeat (TIPO_CARRO, NORTE) 15 ++ repeat (TIPO_CARRO, SUL) 3 ++
  repeat (TIPO_CARRO, LESTE) 8 ++ repeat (TIPO_CARRO, OESTE) 8 ++
  repeat (TIPO_AMBULANCIA, NORTE) 2 ++ repeat (TIPO_AMBULANCIA, SUL) 1 ++
  repeat (TIPO_AMBULANCIA, LESTE) 3 ++ repeat (TIPO_AMBULANCIA, OESTE) 1.

(** [#define TOTAL_CARROS (CARROS_NORTE + CARROS_SUL + CARROS_LESTE + CARROS_OESTE)] *)
Definition TOTAL_CARROS : Z := 15 + 3 + 8 + 8.

(** States reachable from the start of [main] with population [pop]. *)
Inductive alcancavel (pop : list (TipoVeiculo * Direcao)) : Mundo -> Prop :=
| alc_inicial : alcancavel pop (mundo_inicial pop)
| alc_passo : forall w a w',
    alcancavel pop w -> passo w a = Some w' -> alcancavel pop w'.

(** Running a schedule; [None] if some scheduled actor is blocked. *)
Fixpoint executar (w : Mundo) (agenda : list Ator) : option Mundo :=
  match agenda with
  | [] => Some w
  | a :: r =>
      match passo w a with
      | Some w' => executar w' r
      | None => None
      end
  end.

(** ** Axes and observations used by the statements *)

Inductive Eixo := EixoNS | EixoLO.

(** Axis of a direction: North/South share one axis, East/West the other;
    any other [int] value has no axis. *)
Definition eixo_direcao (d : Direcao) : option Eixo :=
  if Z.eqb d NORTE || Z.eqb d SUL then Some EixoNS
  else if Z.eqb d LESTE || Z.eqb d OESTE then Some EixoLO
  else None.

(** Axis encoded in a flow selector. *)
Definition eixo_fluxo (e : EstadoFluxo) : Eixo :=
  match e with
  | FLUXO_NS | AMBULANCIA_NS => EixoNS
  | FLUXO_LO | AMBULANCIA_LO => EixoLO
  end.

Definition fluxo_normal (e : EstadoFluxo) : bool :=
  match e with FLUXO_NS | FLUXO_LO => true | _ => false end.

(** Some vehicle thread is inside the intersection on axis [x]. *)
Definition atravessando_no_eixo (w : Mundo) (x : Eixo) : bool :=
  existsb (fun v =>
             match pc v, eixo_direcao (direcao v) with
             | Atravessando, Some y => match x, y with
                                      | EixoNS, EixoNS | EixoLO, EixoLO => true
                                      | _, _ => false
                                      end
             | _, _ => false
             end) (veiculos w).

Definition eh_carro_atravessando (v : Veiculo) : bool :=
  match tipo v, pc v with
  | TIPO_CARRO, Atravessando => true
  | _, _ => false
  end.

(** Number of car threads inside the intersection. *)
Definition carros_atravessando (vs : list Veiculo) : Z :=
  Z.of_nat (length (filter eh_carro_atravessando vs)).

(** Number of vehicle threads satisfying [f]. *)
Definition conta (f : Veiculo -> bool) (vs : list Veiculo) : Z :=
  Z.of_nat (length (filter f vs)).

Definition eh_ambulancia_atravessando (v : Veiculo) : bool :=
  match tipo v, pc v with
  | TIPO_AMBULANCIA, Atravessando => true
  | _, _ => false
  end.

(** Thread of kind [t] coming from [d] blocked in its admission loop. *)
Definition eh_esperando (t : TipoVeiculo) (d : Direcao) (v : Veiculo) : bool :=
  TipoVeiculo_eqb (tipo v) t && Z.eqb (direcao v) d &&
  match pc v with Esperando => true | _ => false end.

(** Every direction a thread can be created with indexes the arrays. *)
Definition direcao_valida (d : Direcao) : Prop := 0 <= d < NUM_DIRECOES.

(** Bookkeeping invariant: the counters of [struct Cruzamento] are exactly
    the numbers of threads in the corresponding program points. *)
Definition contadores_coerentes (w : Mundo) : Prop :=
  let c := cruzamento w in
  let vs := veiculos w in
  length (carros_esperando c) = Z.to_nat NUM_DIRECOES /\
  length (ambulancias_esperando c) = Z.to_nat NUM_DIRECOES /\
  Forall (fun v => direcao_valida (direcao v)) vs /\
  carros_no_cruzamento c = conta eh_carro_atravessando vs /\
  ambulancias_no_cruzamento c = conta eh_ambulancia_atravessando vs /\
  (forall d, direcao_valida d ->
     ler (carros_esperando c) d = conta (eh_esperando TIPO_CARRO d) vs /\
     ler (ambulancias_esperando c) d = conta (eh_esperando TIPO_AMBULANCIA d) vs).

(** Phase invariant of the controller: during a window the opened flow is
    the current one, and during the emergency passive wait the current flow
    is an ambulance flow. *)
Definition fase_coerente (w : Mundo) : Prop :=
  match controlador w with
  | CtlJanela p i tf =>
      estado_atual (cruzamento w) = p /\ fluxo_normal p = true /\
      0 <= i <= tf /\ T_MINIMO <= tf <= T_MAXIMO
  | CtlEmEspera => fluxo_normal (estado_atual (cruzamento w)) = false
  | _ => True
  end.

(** ** Thread ids ([lock_contadores_id])

    [main] sets [contadores_id_carros[i] = 1] and
    [contadores_id_ambulancias[i] = 1]; each thread, under
    [lock_contadores_id], reads the counter of its direction as its [id] and
    increments it.  [ordem] is the order in which the threads of one kind
    take that lock (any interleaving of the thread starts); the result lists
    the ids they get, in the same order. *)
Definition contadores_id_iniciais : list Z := repeat 1 (Z.to_nat NUM_DIRECOES).

Fixpoint atribuir_ids (contadores : list Z) (ordem : list Direcao) : list Z :=
  match ordem with
  | [] => []
  | d :: resto =>
      ler contadores d
        :: atribuir_ids (escrever contadores d (ler contadores d + 1)) resto
  end.

(** Number of occurrences of direction [d] in [l]. *)
Definition conta_direcao (d : Direcao) (l : list Direcao) : Z :=
  Z.of_nat (length (filter (Z.eqb d) l)).

(** The thread [main] creates for [td], at program point [p]. *)
Definition veiculo_em (p : PcVeiculo) (td : TipoVeiculo * Direcao) : Veiculo :=
  mkVeiculo (fst td) (snd td) p.

(** ** Schedules used as concrete executions *)

Definition apos (agenda : list Ator) : Mundo :=
  match executar (mundo_inicial populacao_main) agenda with
  | Some w => w
  | None => mundo_inicial populacao_main
  end.

(** Indices in [populacao_main]: cars from the North are 0..14, from the
    East 18..25; ambulances from the North are 34 and 35. *)

(** A car from the North enters, then an ambulance from the North announces
    its emergency. *)
Definition agenda_carro_depois_emergencia : list Ator := [Veic 0; Veic 34].

(** Two ambulances from the North announce and cross on [AMBULANCIA_NS]; the
    first one leaves (clearing [modo_emergencia]); the controller returns to
    the normal branch and opens [FLUXO_LO] for a waiting car from the East
    while the second ambulance is still inside. *)
Definition agenda_colisao : list Ator :=
  [Veic 34; Veic 35; Controlador; Veic 34; Veic 35; Veic 34;
   Controlador; Veic 18; Controlador; Veic 18].

(** ** Generic lemmas about the model *)

Lemma executar_alcancavel : forall pop agenda w w',
  alcancavel pop w -> executar w agenda = Some w' -> alcancavel pop w'.
Proof.
  intros pop agenda; induction agenda as [|a r IH]; intros w w' Hw Hex; simpl in Hex.
  - injection Hex as <-; exact Hw.
  - destruct (passo w a) as [w1|] eqn:Hp; [|discriminate].
    apply (IH w1); [econstructor; eassumption | exact Hex].
Qed.

Lemma apos_alcancavel : forall agenda,
  executar (mundo_inicial populacao_main) agenda <> None ->
  alcancavel populacao_main (apos agenda).
Proof.
  intros agenda H; unfold apos.
  destruct (executar (mundo_inicial populacao_main) agenda) as [w|] eqn:E.
  - eapply executar_alcancavel; [constructor | exact E].
  - constructor.
Qed.

Lemma pode_passar_carro_normal : forall m d e,
  pode_passar m d e TIPO_CARRO = true -> fluxo_normal e = true /\ m = false.
Proof.
  intros m d e H; destruct e, m; unfold pode_passar in H; simpl in H;
    try discriminate; split; reflexivity.
Qed.

Lemma direcao_casos : forall d : Direcao,
  d = NORTE \/ d = SUL \/ d = LESTE \/ d = OESTE \/
  (Z.eqb d NORTE = false /\ Z.eqb d SUL = false /\
   Z.eqb d LESTE = false /\ Z.eqb d OESTE = false).
Proof. intro d; unfold NORTE, SUL, LESTE, OESTE; rewrite !Z.eqb_neq; lia. Qed.

Lemma pode_passar_emergencia_carro : forall d e,
  pode_passar true d e TIPO_CARRO = false.
Proof. intros d e; destruct e; reflexivity. Qed.

Lemma passo_controlador_carros : forall c p c' p',
  passo_controlador c p = Some (c', p') ->
  carros_no_cruzamento c' = carros_no_cruzamento c.
Proof.
  intros c p c' p' H; destruct p; simpl in H;
    repeat match goal with
    | H : context [if ?b then _ else _] |- _ => destruct b
    end;
    unfold ctl_decide_emergencia, ctl_decide_normal, decide_normal in H;
    repeat match goal with
    | H : context [if ?b then _ else _] |- _ => destruct b
    end;
    try discriminate; injection H as <- <-; reflexivity.
Qed.

(** ** Admission predicate *)

(** C1: under a priority selector an ordinary vehicle is never admitted,
    whatever the emergency flag and the direction; under a normal selector
    with no emergency, a vehicle of either kind is admitted exactly when the
    axis of its direction is the axis of the selector. *)
Theorem pode_passar_prioridade_e_eixo :
  (forall m d, pode_passar m d AMBULANCIA_NS TIPO_CARRO = false /\
               pode_passar m d AMBULANCIA_LO TIPO_CARRO = false) /\
  (forall d t,
     (pode_passar false d FLUXO_NS t = true <-> eixo_direcao d = Some (eixo_fluxo FLUXO_NS)) /\
     (pode_passar false d FLUXO_LO t = true <-> eixo_direcao d = Some (eixo_fluxo FLUXO_LO))).
Proof.
  split.
  - intros m d; split; reflexivity.
  - intros d t.
    destruct (direcao_casos d) as [->|[->|[->|[->|(h0 & h1 & h2 & h3)]]]];
      destruct t; unfold pode_passar, eixo_direcao; rewrite ?h0, ?h1, ?h2, ?h3;
      simpl; split; split; intro H; (reflexivity || discriminate).
Qed.

(** C2: while [modo_emergencia] is set, [pode_passar] refuses every car,
    whatever the direction and the flow selector (also [FLUXO_NS] and
    [FLUXO_LO]); hence no step of any thread from a state with the flag set
    increases [carros_no_cruzamento]: no car is admitted. *)
Theorem emergencia_barra_carros :
  (forall d e, pode_passar true d e TIPO_CARRO = false) /\
  (forall w a w',
     modo_emergencia (cruzamento w) = true ->
     passo w a = Some w' ->
     carros_no_cruzamento (cruzamento w') <= carros_no_cruzamento (cruzamento w)).
Proof.
  split.
  - exact pode_passar_emergencia_carro.
  - intros w a w' Hm Hp; destruct a as [|n]; simpl in Hp.
    + destruct (passo_controlador (cruzamento w) (controlador w)) as [[c' p']|] eqn:E;
        [|discriminate].
      injection Hp as <-; simpl.
      rewrite (passo_controlador_carros _ _ _ _ E); lia.
    + destruct (nth_error (veiculos w) n) as [v|]; [|discriminate].
      destruct v as [t d p]; destruct t, p; unfold passo_veiculo in Hp; simpl in Hp;
        rewrite ?Hm, ?pode_passar_emergencia_carro in Hp;
        repeat match type of Hp with
        | context [if ?b then _ else _] => destruct b
        end;
        try discriminate; injection Hp as <-;
        unfold carro_sai, ambulancia_entra, ambulancia_sai; simpl; lia.
Qed.

(** C10: a direction value other than NORTE, SUL, LESTE and OESTE falls
    through every test of [pode_passar] to the final [return 0], for every
    emergency flag, flow selector and vehicle kind. *)
Theorem pode_passar_direcao_invalida : forall m d e t,
  d <> NORTE -> d <> SUL -> d <> LESTE -> d <> OESTE ->
  pode_passar m d e t = false.
Proof.
  intros m d e t h0 h1 h2 h3.
  apply Z.eqb_neq in h0, h1, h2, h3.
  unfold pode_passar; rewrite h0, h1, h2, h3; simpl.
  destruct m, e, t; reflexivity.
Qed.

Lemma pode_passar_direcao_invalida_witness :
  (NUM_DIRECOES <> NORTE /\ NUM_DIRECOES <> SUL /\
   NUM_DIRECOES <> LESTE /\ NUM_DIRECOES <> OESTE) /\
  pode_passar false NUM_DIRECOES FLUXO_NS TIPO_AMBULANCIA = false.
Proof.
  split.
  - unfold NUM_DIRECOES, NORTE, SUL, LESTE, OESTE; repeat split; discriminate.
  - apply pode_passar_direcao_invalida;
      unfold NUM_DIRECOES, NORTE, SUL, LESTE, OESTE; discriminate.
Defined.

(** ** Window duration *)

(** C5: whatever the demand [num_carros] (any [int], not only the
    non-negative ones), the clamped [tempo_final] lies in
    [[T_MINIMO, T_MAXIMO]] = [[5, 20]]. *)
Theorem tempo_final_limitado : forall num_carros,
  T_MINIMO <= tempo_final num_carros <= T_MAXIMO.
Proof.
  intro n; unfold tempo_final.
  destruct (Z.gtb_spec (int_of_float (tempo_calculado n)) T_MAXIMO);
    [unfold T_MINIMO, T_MAXIMO; lia|].
  destruct (Z.ltb_spec (int_of_float (tempo_calculado n)) T_MINIMO);
    unfold T_MINIMO, T_MAXIMO in *; lia.
Qed.

(** C6: with 1.8 and 2.2 as [double] literals, demand 1 gives the raw
    value 1.8 truncated to 1 and clamped up to 5; demand 5 gives 10.6
    truncated to 10; demand 20 gives 43.6 truncated to 43 and clamped down
    to 20. *)
Theorem tempo_final_exemplos :
  int_of_float (tempo_calculado 1) = 1 /\ tempo_final 1 = 5 /\
  int_of_float (tempo_calculado 5) = 10 /\ tempo_final 5 = 10 /\
  int_of_float (tempo_calculado 20) = 43 /\ tempo_final 20 = 20.
Proof. vm_compute; repeat split. Qed.

(** ** Axis decision *)

(** C7: in both branches of the controller the North-South selector is
    chosen exactly when the North-South demand is at least the East-West
    demand; in particular a tie goes to North-South, and the normal branch
    uses the winning axis's demand as [num_carros]. *)
Theorem decisao_desempate_ns :
  forall demanda_ns demanda_lo,
    (fst (decide_normal demanda_ns demanda_lo) = FLUXO_NS <-> demanda_lo <= demanda_ns) /\
    (decide_emergencia demanda_ns demanda_lo = AMBULANCIA_NS <-> demanda_lo <= demanda_ns) /\
    decide_normal demanda_ns demanda_ns = (FLUXO_NS, demanda_ns) /\
    decide_emergencia demanda_ns demanda_ns = AMBULANCIA_NS /\
    snd (decide_normal demanda_ns demanda_lo) = Z.max demanda_ns demanda_lo.
Proof.
  intros ns lo; unfold decide_normal, decide_emergencia.
  rewrite !Z.geb_leb, Z.leb_refl; destruct (Z.leb_spec lo ns) as [H|H]; simpl.
  - rewrite Z.max_l by lia; repeat split; lia.
  - rewrite Z.max_r by lia; repeat split; (discriminate || lia).
Qed.

(** ** Ambulance exit *)

(** C8: the exit step of any ambulance thread leaves [modo_emergencia]
    false, whatever the rest of the state (other ambulances waiting or still
    crossing included), and decrements [ambulancias_no_cruzamento]. *)
Theorem saida_ambulancia_limpa_emergencia : forall w n v w',
  nth_error (veiculos w) n = Some v ->
  tipo v = TIPO_AMBULANCIA -> pc v = Atravessando ->
  passo w (Veic n) = Some w' ->
  modo_emergencia (cruzamento w') = false /\
  ambulancias_no_cruzamento (cruzamento w') = ambulancias_no_cruzamento (cruzamento w) - 1.
Proof.
  intros w n [t d p] w' Hn Ht Hp Hs; simpl in Ht, Hp; subst t p.
  unfold passo in Hs; rewrite Hn in Hs; simpl in Hs.
  injection Hs as <-; split; reflexivity.
Qed.

(** ** Invariants of the interleaving semantics *)

(** A controller step either leaves the shared state untouched or writes
    [estado_atual] only, and it writes only when [carros_no_cruzamento] is
    not positive (right after a drain loop). *)
Lemma passo_controlador_escrita : forall c p c' p',
  passo_controlador c p = Some (c', p') ->
  c' = c \/
  (carros_no_cruzamento c <= 0 /\
   exists e, c' = set_estado_atual c e).
Proof.
  intros c p c' p' H; destruct p; simpl in H;
    repeat match type of H with
    | context [Z.gtb ?x ?y] => destruct (Z.gtb_spec x y)
    | context [if ?b then _ else _] => destruct b
    end;
    try discriminate;
    try (injection H as <- <-; left; reflexivity);
    unfold ctl_decide_emergencia, ctl_decide_normal in H;
    repeat match type of H with
    | context [decide_normal ?x ?y] => destruct (decide_normal x y) eqn:?
    end;
    injection H as <- <-; right; split; try lia; eexists; reflexivity.
Qed.

(** A vehicle step never writes [estado_atual]; it increases
    [carros_no_cruzamento] only by admitting a car, which [pode_passar]
    allows only under a normal selector. *)
Lemma passo_veiculo_estado : forall c v c' p',
  passo_veiculo c v = Some (c', p') ->
  estado_atual c' = estado_atual c /\
  (carros_no_cruzamento c' <= carros_no_cruzamento c \/ fluxo_normal (estado_atual c) = true).
Proof.
  intros c [t d p] c' p' H; destruct t, p; unfold passo_veiculo in H; simpl in H;
    repeat match type of H with
    | context [if pode_passar ?m ?d ?e TIPO_CARRO then _ else _] =>
        let E := fresh "E" in
        destruct (pode_passar m d e TIPO_CARRO) eqn:E;
        [apply pode_passar_carro_normal in E; destruct E as [E _] |]
    | context [if ?b then _ else _] => destruct b
    end;
    try discriminate; injection H as <- <-;
    unfold carro_entra, carro_sai, ambulancia_entra, ambulancia_sai; simpl in *;
    split; auto; lia.
Qed.

Lemma filter_substituir : forall (f : Veiculo -> bool) l n y x,
  nth_error l n = Some y ->
  (length (filter f (substituir l n x)) + (if f y then 1 else 0) =
   length (filter f l) + (if f x then 1 else 0))%nat.
Proof.
  intros f l; induction l as [|z l IH]; intros [|n] y x Hn; simpl in Hn;
    try discriminate.
  - injection Hn as ->; simpl.
    destruct (f x), (f y); simpl; lia.
  - simpl; specialize (IH n y x Hn); destruct (f z); simpl; lia.
Qed.

(** [carros_no_cruzamento] counts exactly the car threads that are inside
    the intersection; in particular it is never negative. *)
Lemma carros_no_cruzamento_conta : forall pop w,
  alcancavel pop w ->
  carros_no_cruzamento (cruzamento w) = carros_atravessando (veiculos w).
Proof.
  intros pop w H; induction H as [|w a w' Hw IH Hp].
  - unfold carros_atravessando; simpl.
    induction pop as [|[t d] pop IHp]; simpl; [reflexivity|].
    unfold eh_carro_atravessando at 1; simpl; destruct t; exact IHp.
  - destruct a as [|n]; simpl in Hp.
    + destruct (passo_controlador (cruzamento w) (controlador w)) as [[c' p']|] eqn:E;
        [|discriminate].
      injection Hp as <-; simpl.
      rewrite (passo_controlador_carros _ _ _ _ E); exact IH.
    + destruct (nth_error (veiculos w) n) as [v|] eqn:Hn; [|discriminate].
      destruct (passo_veiculo (cruzamento w) v) as [[c' p']|] eqn:E; [|discriminate].
      injection Hp as <-; simpl.
      pose proof (filter_substituir eh_carro_atravessando _ _ _
                    (mkVeiculo (tipo v) (direcao v) p') Hn) as Hf.
      unfold carros_atravessando in *.
      destruct v as [t d p]; destruct t, p; unfold passo_veiculo in E; simpl in E, Hf;
        repeat match type of E with
        | context [if ?b then _ else _] => destruct b
        end;
        try discriminate; injection E as <- <-;
        unfold carro_entra, carro_sai, ambulancia_entra, ambulancia_sai; simpl in *;
        lia.
Qed.

Lemma carros_no_cruzamento_nao_negativo : forall pop w,
  alcancavel pop w -> 0 <= carros_no_cruzamento (cruzamento w).
Proof.
  intros pop w H; rewrite (carros_no_cruzamento_conta pop w H).
  unfold carros_atravessando; lia.
Qed.

(** C4 (as the code behaves): in every reachable state, a car inside the
    intersection implies a normal flow selector ([FLUXO_NS] or [FLUXO_LO]);
    [modo_emergencia] may already be set by an announcing ambulance while
    earlier cars finish crossing. *)
Theorem carros_atravessando_fluxo_normal : forall pop w,
  alcancavel pop w ->
  0 < carros_no_cruzamento (cruzamento w) ->
  fluxo_normal (estado_atual (cruzamento w)) = true.
Proof.
  intros pop w H; induction H as [|w a w' Hw IH Hp]; intro Hpos.
  - simpl in Hpos; lia.
  - destruct a as [|n]; simpl in Hp.
    + destruct (passo_controlador (cruzamento w) (controlador w)) as [[c' p']|] eqn:E;
        [|discriminate].
      injection Hp as <-; simpl in *.
      destruct (passo_controlador_escrita _ _ _ _ E) as [->|[Hle [e ->]]].
      * exact (IH Hpos).
      * simpl in Hpos; lia.
    + destruct (nth_error (veiculos w) n) as [v|]; [|discriminate].
      destruct (passo_veiculo (cruzamento w) v) as [[c' p']|] eqn:E; [|discriminate].
      injection Hp as <-; simpl in *.
      destruct (passo_veiculo_estado _ _ _ _ E) as [He [Hle|Hn]]; rewrite He.
      * apply IH; lia.
      * exact Hn.
Qed.

Lemma carros_atravessando_fluxo_normal_witness :
  (alcancavel populacao_main (apos [Veic 0]) /\
   0 < carros_no_cruzamento (cruzamento (apos [Veic 0]))) /\
  fluxo_normal (estado_atual (cruzamento (apos [Veic 0]))) = true.
Proof.
  split; [split; [apply apos_alcancavel; vm_compute; discriminate | vm_compute; reflexivity]|].
  apply (carros_atravessando_fluxo_normal populacao_main).
  - apply apos_alcancavel; vm_compute; discriminate.
  - vm_compute; reflexivity.
Defined.

(** C4 as stated fails: after a car from the North has entered under
    [FLUXO_NS], an ambulance announcing its emergency sets [modo_emergencia]
    while the car is still inside. *)
Lemma carros_atravessando_sem_emergencia_falso :
  ~ (forall w, alcancavel populacao_main w ->
       0 < carros_no_cruzamento (cruzamento w) ->
       fluxo_normal (estado_atual (cruzamento w)) = true /\
       modo_emergencia (cruzamento w) = false).
Proof.
  intro H.
  destruct (H (apos agenda_carro_depois_emergencia)) as [_ Hm].
  - apply apos_alcancavel; vm_compute; discriminate.
  - vm_compute; reflexivity.
  - vm_compute in Hm; discriminate.
Qed.

(** C3: a reachable state of the threads created by [main] in which an
    ambulance from the North and a car from the East are both inside the
    intersection: ordinary and priority crossings coexist, on both axes. *)
Theorem exclusao_mutua_violada :
  alcancavel populacao_main (apos agenda_colisao) /\
  0 < carros_no_cruzamento (cruzamento (apos agenda_colisao)) /\
  0 < ambulancias_no_cruzamento (cruzamento (apos agenda_colisao)) /\
  atravessando_no_eixo (apos agenda_colisao) EixoNS = true /\
  atravessando_no_eixo (apos agenda_colisao) EixoLO = true.
Proof.
  split; [apply apos_alcancavel; vm_compute; discriminate|].
  vm_compute; repeat split; reflexivity.
Qed.

(** C9: in every reachable state a controller step leaves the shared state
    untouched while a car is inside the intersection, and any step that
    changes [estado_atual] is taken with [carros_no_cruzamento = 0] (right
    after the drain loop of either branch). *)
Theorem controlador_drena_antes_de_trocar : forall pop w w',
  alcancavel pop w ->
  passo w Controlador = Some w' ->
  (0 < carros_no_cruzamento (cruzamento w) -> cruzamento w' = cruzamento w) /\
  (estado_atual (cruzamento w') <> estado_atual (cruzamento w) ->
   carros_no_cruzamento (cruzamento w) = 0).
Proof.
  intros pop w w' Hw Hp.
  pose proof (carros_no_cruzamento_nao_negativo pop w Hw) as Hnn.
  simpl in Hp.
  destruct (passo_controlador (cruzamento w) (controlador w)) as [[c' p']|] eqn:E;
    [|discriminate].
  injection Hp as <-; simpl.
  destruct (passo_controlador_escrita _ _ _ _ E) as [->|[Hle [e ->]]].
  - split; [reflexivity | intro Hne; congruence].
  - split; [intro; lia | intro; lia].
Qed.

Lemma controlador_drena_antes_de_trocar_witness :
  (alcancavel populacao_main (apos [Veic 18]) /\
   passo (apos [Veic 18]) Controlador = Some (apos [Veic 18; Controlador])) /\
  ((0 < carros_no_cruzamento (cruzamento (apos [Veic 18])) ->
    cruzamento (apos [Veic 18; Controlador]) = cruzamento (apos [Veic 18])) /\
   (estado_atual (cruzamento (apos [Veic 18; Controlador])) <>
    estado_atual (cruzamento (apos [Veic 18])) ->
    carros_no_cruzamento (cruzamento (apos [Veic 18])) = 0)).
Proof.
  split; [split; [apply apos_alcancavel; vm_compute; discriminate | vm_compute; reflexivity]|].
  apply (controlador_drena_antes_de_trocar populacao_main).
  - apply apos_alcancavel; vm_compute; discriminate.
  - vm_compute; reflexivity.
Defined.

(** ** Witnesses of the statements with hypotheses *)

Lemma emergencia_barra_carros_witness :
  (modo_emergencia (cruzamento (apos [Veic 34])) = true /\
   passo (apos [Veic 34]) (Veic 0) = Some (apos [Veic 34; Veic 0])) /\
  carros_no_cruzamento (cruzamento (apos [Veic 34; Veic 0])) <=
  carros_no_cruzamento (cruzamento (apos [Veic 34])).
Proof.
  split; [split; vm_compute; reflexivity|].
  apply (proj2 emergencia_barra_carros (apos [Veic 34]) (Veic 0)).
  - vm_compute; reflexivity.
  - vm_compute; reflexivity.
Defined.

Lemma saida_ambulancia_limpa_emergencia_witness :
  (nth_error (veiculos (apos [Veic 34; Controlador; Veic 34])) 34 =
     Some (mkVeiculo TIPO_AMBULANCIA NORTE Atravessando) /\
   passo (apos [Veic 34; Controlador; Veic 34]) (Veic 34) =
     Some (apos [Veic 34; Controlador; Veic 34; Veic 34])) /\
  (modo_emergencia (cruzamento (apos [Veic 34; Controlador; Veic 34; Veic 34])) = false /\
   ambulancias_no_cruzamento (cruzamento (apos [Veic 34; Controlador; Veic 34; Veic 34])) =
   ambulancias_no_cruzamento (cruzamento (apos [Veic 34; Controlador; Veic 34])) - 1).
Proof.
  split; [split; vm_compute; reflexivity|].
  apply (saida_ambulancia_limpa_emergencia _ 34 (mkVeiculo TIPO_AMBULANCIA NORTE Atravessando)).
  - vm_compute; reflexivity.
  - reflexivity.
  - reflexivity.
  - vm_compute; reflexivity.
Defined.

(** ** Further properties of the code *)

Lemma conta_substituir : forall f l n y x,
  nth_error l n = Some y ->
  conta f (substituir l n x) =
  conta f l - (if f y then 1 else 0) + (if f x then 1 else 0).
Proof.
  intros f l n y x Hn; unfold conta.
  pose proof (filter_substituir f l n y x Hn) as H.
  destruct (f x), (f y); simpl in *; lia.
Qed.

Lemma escrever_nat_length : forall a n v, length (escrever_nat a n v) = length a.
Proof. induction a as [|x a IH]; intros [|n] v; simpl; auto. Qed.

Lemma nth_escrever_nat : forall a n m v,
  (n < length a)%nat ->
  nth m (escrever_nat a n v) 0 = if Nat.eqb n m then v else nth m a 0.
Proof.
  induction a as [|x a IH]; intros n m v Hn; simpl in Hn; [lia|].
  destruct n as [|n], m as [|m]; simpl; auto.
  apply IH; lia.
Qed.

Lemma ler_escrever : forall a d d' v,
  length a = Z.to_nat NUM_DIRECOES -> direcao_valida d -> direcao_valida d' ->
  ler (escrever a d v) d' = if Z.eqb d d' then v else ler a d'.
Proof.
  intros a d d' v Hl Hd Hd'; unfold direcao_valida, NUM_DIRECOES in *.
  unfold ler, escrever; rewrite nth_escrever_nat by lia.
  destruct (Z.eqb_spec d d') as [->|Hne]; [rewrite Nat.eqb_refl; reflexivity|].
  destruct (Nat.eqb_spec (Z.to_nat d) (Z.to_nat d')); [lia|reflexivity].
Qed.

Lemma Forall_substituir : forall (P : Veiculo -> Prop) l n x,
  Forall P l -> P x -> Forall P (substituir l n x).
Proof.
  intros P l; induction l as [|y l IH]; intros [|n] x Hl Hx; simpl; auto;
    inversion Hl; subst; constructor; auto.
Qed.

Lemma Forall_nth_error : forall (P : Veiculo -> Prop) l n x,
  Forall P l -> nth_error l n = Some x -> P x.
Proof.
  intros P l n x Hl Hn; apply nth_error_In in Hn.
  rewrite Forall_forall in Hl; auto.
Qed.

Lemma conta_inicial : forall f pop,
  (forall t d, f (mkVeiculo t d Aproximando) = false) ->
  conta f (map (fun td => mkVeiculo (fst td) (snd td) Aproximando) pop) = 0.
Proof.
  intros f pop Hf; unfold conta; induction pop as [|[t d] pop IH]; simpl; auto.
  rewrite Hf; exact IH.
Qed.

Lemma contadores_coerentes_alcancavel : forall pop w,
  Forall (fun td => direcao_valida (snd td)) pop ->
  alcancavel pop w -> contadores_coerentes w.
Proof.
  intros pop w Hpop H; induction H as [|w a w' Hw IH Hp].
  - unfold contadores_coerentes, mundo_inicial, cruzamento_inicial; simpl.
    refine (conj eq_refl (conj eq_refl (conj _ (conj _ (conj _ _))))).
    + apply Forall_map; eapply Forall_impl; [|exact Hpop]; intros [t d]; auto.
    + symmetry; apply conta_inicial; intros [] d; reflexivity.
    + symmetry; apply conta_inicial; intros [] d; reflexivity.
    + intros d Hd; rewrite !conta_inicial by (intros [] d'; unfold eh_esperando; simpl; destruct (Z.eqb d' d); reflexivity).
      unfold ler; destruct (Z.to_nat d) as [|[|[|[|[|k]]]]]; split; reflexivity.
  - destruct IH as (Hl1 & Hl2 & Hdirs & Hc & Ha & Hesp).
    destruct a as [|n]; simpl in Hp.
    + destruct (passo_controlador (cruzamento w) (controlador w)) as [[c' p']|] eqn:E;
        [|discriminate].
      injection Hp as <-.
      destruct (passo_controlador_escrita _ _ _ _ E) as [->|[_ [e ->]]];
        unfold contadores_coerentes; simpl; repeat split; auto;
        apply Hesp; assumption.
    + destruct (nth_error (veiculos w) n) as [v|] eqn:Hn; [|discriminate].
      destruct (passo_veiculo (cruzamento w) v) as [[c' p']|] eqn:E; [|discriminate].
      injection Hp as <-.
      pose proof (Forall_nth_error _ _ _ _ Hdirs Hn) as Hdv.
      destruct v as [t dv p]; simpl in Hdv.
      destruct t, p; unfold passo_veiculo in E; simpl in E;
        repeat match type of E with
        | context [if ?b then _ else _] => destruct b
        end;
        try discriminate; injection E as <- <-.
      all: unfold contadores_coerentes; cbn [cruzamento veiculos controlador];
        rewrite !(conta_substituir _ _ _ _ _ Hn).
      all: unfold carro_entra, carro_sai, ambulancia_entra, ambulancia_sai,
             set_carros_esperando, set_ambulancias_esperando, set_carros_no_cruzamento,
             set_ambulancias_no_cruzamento, set_modo_emergencia; cbn -[conta ler escrever].
      all: refine (conj _ (conj _ (conj _ (conj _ (conj _ _)))));
        [ unfold escrever; rewrite ?escrever_nat_length; assumption
        | unfold escrever; rewrite ?escrever_nat_length; assumption
        | apply Forall_substituir; assumption
        | lia | lia | ].
      all: intros d Hd; destruct (Hesp d Hd) as [E1 E2];
        rewrite !(conta_substituir _ _ _ _ _ Hn); unfold eh_esperando in *;
        cbn [tipo direcao pc TipoVeiculo_eqb andb];
        repeat rewrite ler_escrever
          by (try (unfold escrever; rewrite ?escrever_nat_length); assumption);
        destruct (Z.eqb dv d) eqn:Edd;
        [apply Z.eqb_eq in Edd; subst; rewrite ?Z.eqb_refl|]; simpl; split; lia.
Qed.

Lemma conta_zero : forall f vs v,
  conta f vs = 0 -> In v vs -> f v = false.
Proof.
  intros f vs v H Hin; unfold conta in H.
  destruct (f v) eqn:E; [|reflexivity].
  assert (In v (filter f vs)) by (apply filter_In; auto).
  destruct (filter f vs); [contradiction|simpl in H; lia].
Qed.

Lemma In_substituir : forall (l : list Veiculo) n x v,
  In v (substituir l n x) -> v = x \/ In v l.
Proof.
  induction l as [|y l IH]; intros [|n] x v Hin; simpl in *; auto.
  - destruct Hin as [->|Hin]; auto.
  - destruct Hin as [->|Hin]; auto.
    destruct (IH n x v Hin); auto.
Qed.

Lemma pode_passar_eixo : forall m d e t,
  pode_passar m d e t = true -> eixo_direcao d = Some (eixo_fluxo e).
Proof.
  intros m d e t H.
  destruct (direcao_casos d) as [->|[->|[->|[->|(h0 & h1 & h2 & h3)]]]];
    destruct m, e, t; unfold pode_passar, eixo_direcao in *;
    rewrite ?h0, ?h1, ?h2, ?h3 in *; simpl in *; (reflexivity || discriminate).
Qed.

Lemma tempo_final_entre : forall n, T_MINIMO <= tempo_final n <= T_MAXIMO.
Proof.
  intro n; unfold tempo_final, T_MINIMO, T_MAXIMO.
  destruct (Z.gtb_spec (int_of_float (tempo_calculado n)) 20); [lia|].
  destruct (Z.ltb_spec (int_of_float (tempo_calculado n)) 5); lia.
Qed.

Lemma fase_coerente_alcancavel : forall pop w,
  alcancavel pop w -> fase_coerente w.
Proof.
  intros pop w H; induction H as [|w a w' Hw IH Hp].
  - exact I.
  - destruct a as [|n]; simpl in Hp.
    + destruct (passo_controlador (cruzamento w) (controlador w)) as [[c' p']|] eqn:E;
        [|discriminate].
      injection Hp as <-; unfold fase_coerente in *; simpl.
      destruct (controlador w) as [| | | |prox i tf]; simpl in E;
        repeat match type of E with
        | context [if ?b then _ else _] => destruct b eqn:?
        end;
        try discriminate;
        unfold ctl_decide_emergencia, ctl_decide_normal, decide_normal,
          decide_emergencia in E;
        repeat match type of E with
        | context [if ?b then _ else _] => destruct b eqn:?
        end;
        injection E as <- <-; simpl in *;
        repeat match goal with
        | H : Z.ltb _ _ = true |- _ => apply Z.ltb_lt in H
        | H : modo_emergencia _ = true |- _ => rewrite H
        end;
        simpl; auto;
        try (match goal with
             | |- context [tempo_final ?n] => pose proof (tempo_final_entre n)
             end; unfold T_MINIMO, T_MAXIMO in *; repeat split; lia);
        destruct IH as (? & ? & ? & ?); repeat split; auto; lia.
    + destruct (nth_error (veiculos w) n) as [v|]; [|discriminate].
      destruct (passo_veiculo (cruzamento w) v) as [[c' p']|] eqn:E; [|discriminate].
      injection Hp as <-; unfold fase_coerente in *; simpl.
      destruct (passo_veiculo_estado _ _ _ _ E) as [He _]; rewrite He; exact IH.
Qed.

Lemma carros_no_eixo_invariante : forall pop w,
  alcancavel pop w ->
  forall v, In v (veiculos w) -> eh_carro_atravessando v = true ->
  eixo_direcao (direcao v) = Some (eixo_fluxo (estado_atual (cruzamento w))).
Proof.
  intros pop w H; induction H as [|w a w' Hw IH Hp]; intros v Hin Hv.
  - simpl in Hin; apply in_map_iff in Hin; destruct Hin as [[t d] [<- _]].
    destruct t; discriminate.
  - destruct a as [|n]; simpl in Hp.
    + destruct (passo_controlador (cruzamento w) (controlador w)) as [[c' p']|] eqn:E;
        [|discriminate].
      injection Hp as <-; simpl in *.
      destruct (passo_controlador_escrita _ _ _ _ E) as [->|[Hle [e ->]]].
      * exact (IH v Hin Hv).
      * pose proof (carros_no_cruzamento_conta pop w Hw) as Hc.
        unfold carros_atravessando in Hc.
        assert (Hz : conta eh_carro_atravessando (veiculos w) = 0)
          by (unfold conta; lia).
        rewrite (conta_zero _ _ _ Hz Hin) in Hv; discriminate.
    + destruct (nth_error (veiculos w) n) as [x|] eqn:Hn; [|discriminate].
      destruct (passo_veiculo (cruzamento w) x) as [[c' p']|] eqn:E; [|discriminate].
      injection Hp as <-; simpl in *.
      destruct (passo_veiculo_estado _ _ _ _ E) as [He _]; rewrite He.
      destruct (In_substituir _ _ _ _ Hin) as [->|Hin']; [|exact (IH v Hin' Hv)].
      destruct x as [t d p]; unfold eh_carro_atravessando in Hv; simpl in *.
      destruct t; [|discriminate]; destruct p'; try discriminate.
      destruct p; unfold passo_veiculo in E; simpl in E;
        repeat match type of E with
        | context [if ?b then _ else _] => destruct b eqn:?
        end;
        try discriminate; eapply pode_passar_eixo; eassumption.
Qed.

(** X1: with the directions [main] uses, every counter of [struct
    Cruzamento] is exact in every reachable state: [carros_no_cruzamento]
    and [ambulancias_no_cruzamento] count the car and ambulance threads
    inside the intersection, [carros_esperando[d]] and
    [ambulancias_esperando[d]] the car and ambulance threads from [d] blocked
    in their admission loop; in particular no counter is ever negative. *)
Theorem contadores_exatos : forall pop w,
  Forall (fun td => direcao_valida (snd td)) pop ->
  alcancavel pop w ->
  carros_no_cruzamento (cruzamento w) = conta eh_carro_atravessando (veiculos w) /\
  ambulancias_no_cruzamento (cruzamento w) = conta eh_ambulancia_atravessando (veiculos w) /\
  (forall d, direcao_valida d ->
     ler (carros_esperando (cruzamento w)) d = conta (eh_esperando TIPO_CARRO d) (veiculos w) /\
     ler (ambulancias_esperando (cruzamento w)) d =
       conta (eh_esperando TIPO_AMBULANCIA d) (veiculos w) /\
     0 <= ler (carros_esperando (cruzamento w)) d /\
     0 <= ler (ambulancias_esperando (cruzamento w)) d) /\
  0 <= carros_no_cruzamento (cruzamento w) /\
  0 <= ambulancias_no_cruzamento (cruzamento w).
Proof.
  intros pop w Hpop Hw.
  destruct (contadores_coerentes_alcancavel pop w Hpop Hw)
    as (_ & _ & _ & Hc & Ha & Hesp).
  unfold conta in *.
  split; [exact Hc|]; split; [exact Ha|]; split; [|lia].
  intros d Hd; destruct (Hesp d Hd) as [E1 E2]; repeat split; lia.
Qed.

Lemma populacao_main_valida :
  Forall (fun td => direcao_valida (snd td)) populacao_main.
Proof.
  unfold populacao_main, direcao_valida, NUM_DIRECOES; simpl.
  repeat constructor; simpl; unfold NORTE, SUL, LESTE, OESTE; lia.
Qed.

Lemma contadores_exatos_witness :
  (Forall (fun td => direcao_valida (snd td)) populacao_main /\
   alcancavel populacao_main (apos agenda_colisao)) /\
  conta eh_carro_atravessando (veiculos (apos agenda_colisao)) = 1.
Proof.
  split; [split; [exact populacao_main_valida |
                  apply apos_alcancavel; vm_compute; discriminate]|].
  destruct (contadores_exatos populacao_main (apos agenda_colisao)
              populacao_main_valida) as [Hc _].
  - apply apos_alcancavel; vm_compute; discriminate.
  - rewrite <- Hc; vm_compute; reflexivity.
Defined.

(** X2: in every reachable state every car inside the intersection comes
    from a direction on the axis of the current flow selector: cars from
    conflicting directions are never inside together. *)
Theorem carros_no_eixo_do_fluxo : forall pop w v,
  alcancavel pop w -> In v (veiculos w) ->
  tipo v = TIPO_CARRO -> pc v = Atravessando ->
  eixo_direcao (direcao v) = Some (eixo_fluxo (estado_atual (cruzamento w))).
Proof.
  intros pop w v Hw Hin Ht Hp.
  apply (carros_no_eixo_invariante pop w Hw v Hin).
  unfold eh_carro_atravessando; rewrite Ht, Hp; reflexivity.
Qed.

Lemma carros_no_eixo_do_fluxo_witness :
  (alcancavel populacao_main (apos [Veic 0]) /\
   In (mkVeiculo TIPO_CARRO NORTE Atravessando) (veiculos (apos [Veic 0]))) /\
  eixo_direcao NORTE = Some (eixo_fluxo (estado_atual (cruzamento (apos [Veic 0])))).
Proof.
  assert (Hw : alcancavel populacao_main (apos [Veic 0]))
    by (apply apos_alcancavel; vm_compute; discriminate).
  assert (Hin : In (mkVeiculo TIPO_CARRO NORTE Atravessando) (veiculos (apos [Veic 0])))
    by (vm_compute; left; reflexivity).
  split; [split; assumption|].
  exact (carros_no_eixo_do_fluxo populacao_main _ _ Hw Hin eq_refl eq_refl).
Defined.

(** X3: a car passes [pode_passar] exactly when no emergency is declared,
    the selector is a normal car flow and the car's direction is on that
    flow's axis. *)
Theorem pode_passar_carro_caracterizacao : forall m d e,
  pode_passar m d e TIPO_CARRO = true <->
  m = false /\ fluxo_normal e = true /\ eixo_direcao d = Some (eixo_fluxo e).
Proof.
  intros m d e; split.
  - intro H; pose proof (pode_passar_carro_normal m d e H) as [Hn Hm].
    split; [exact Hm|]; split; [exact Hn|]; exact (pode_passar_eixo _ _ _ _ H).
  - intros (-> & Hn & Hx).
    destruct (direcao_casos d) as [->|[->|[->|[->|(h0 & h1 & h2 & h3)]]]];
      destruct e; unfold pode_passar, eixo_direcao in *;
      rewrite ?h0, ?h1, ?h2, ?h3 in *; simpl in *; congruence.
Qed.

(** X4: an ambulance passes [pode_passar] exactly when its direction is on
    the axis of the selector, whatever the emergency flag and whether the
    selector is an ambulance flow or a normal car flow. *)
Theorem pode_passar_ambulancia_caracterizacao : forall m d e,
  pode_passar m d e TIPO_AMBULANCIA = true <-> eixo_direcao d = Some (eixo_fluxo e).
Proof.
  intros m d e; split; [apply pode_passar_eixo|].
  intro Hx.
  destruct (direcao_casos d) as [->|[->|[->|[->|(h0 & h1 & h2 & h3)]]]];
    destruct m, e; unfold pode_passar, eixo_direcao in *;
    rewrite ?h0, ?h1, ?h2, ?h3 in *; simpl in *; congruence.
Qed.

(** X5: while the controller is in the timed window loop of
    [fluxo_trafego], the flow it opened is still the current selector (an
    ambulance announcement does not change it before the next cycle), that
    flow is a normal car flow, the loop counter stays within
    [0 <= i <= tempo_final], and [tempo_final] is in [[5, 20]]. *)
Theorem janela_mantem_fluxo : forall pop w p i tf,
  alcancavel pop w -> controlador w = CtlJanela p i tf ->
  estado_atual (cruzamento w) = p /\ fluxo_normal p = true /\
  0 <= i <= tf /\ T_MINIMO <= tf <= T_MAXIMO.
Proof.
  intros pop w p i tf Hw Hc.
  pose proof (fase_coerente_alcancavel pop w Hw) as H.
  unfold fase_coerente in H; rewrite Hc in H; exact H.
Qed.

Lemma janela_mantem_fluxo_witness :
  (alcancavel populacao_main (apos [Veic 0; Veic 0; Controlador; Veic 34]) /\
   controlador (apos [Veic 0; Veic 0; Controlador; Veic 34]) = CtlJanela FLUXO_NS 0 5) /\
  (estado_atual (cruzamento (apos [Veic 0; Veic 0; Controlador; Veic 34])) = FLUXO_NS /\
   fluxo_normal FLUXO_NS = true /\ 0 <= 0 <= 5 /\ T_MINIMO <= 5 <= T_MAXIMO).
Proof.
  assert (Hw : alcancavel populacao_main (apos [Veic 0; Veic 0; Controlador; Veic 34]))
    by (apply apos_alcancavel; vm_compute; discriminate).
  assert (Hc : controlador (apos [Veic 0; Veic 0; Controlador; Veic 34]) = CtlJanela FLUXO_NS 0 5)
    by (vm_compute; reflexivity).
  split; [split; assumption|].
  exact (janela_mantem_fluxo populacao_main _ _ _ _ Hw Hc).
Defined.

(** X6: while the controller waits passively in the emergency branch, the
    current selector is an ambulance flow, so [pode_passar] refuses every
    car, from every direction, whatever the emergency flag. *)
Theorem espera_emergencia_barra_carros : forall pop w,
  alcancavel pop w -> controlador w = CtlEmEspera ->
  fluxo_normal (estado_atual (cruzamento w)) = false /\
  (forall m d, pode_passar m d (estado_atual (cruzamento w)) TIPO_CARRO = false).
Proof.
  intros pop w Hw Hc.
  pose proof (fase_coerente_alcancavel pop w Hw) as H.
  unfold fase_coerente in H; rewrite Hc in H.
  split; [exact H|].
  intros m d; destruct (pode_passar m d _ TIPO_CARRO) eqn:E; [|reflexivity].
  apply pode_passar_carro_normal in E; destruct E as [E _]; congruence.
Qed.

Lemma espera_emergencia_barra_carros_witness :
  (alcancavel populacao_main (apos [Veic 34; Controlador]) /\
   controlador (apos [Veic 34; Controlador]) = CtlEmEspera) /\
  pode_passar true NORTE (estado_atual (cruzamento (apos [Veic 34; Controlador])))
    TIPO_CARRO = false.
Proof.
  assert (Hw : alcancavel populacao_main (apos [Veic 34; Controlador]))
    by (apply apos_alcancavel; vm_compute; discriminate).
  assert (Hc : controlador (apos [Veic 34; Controlador]) = CtlEmEspera)
    by (vm_compute; reflexivity).
  split; [split; assumption|].
  exact (proj2 (espera_emergencia_barra_carros populacao_main _ Hw Hc) true NORTE).
Defined.

(** X7: for every demand up to the number of car threads [main] creates
    (and for every non-positive one), the binary64/binary32 computation of
    [tempo_final] gives exactly the clamped integer part of the real value
    [1.8 + (n - 1) * 2.2 = (11 n - 2) / 5]: no rounding error of the float
    arithmetic changes the window length. *)
Theorem tempo_final_formula_exata : forall n, n <= TOTAL_CARROS ->
  tempo_final n = Z.min T_MAXIMO (Z.max T_MINIMO ((11 * n - 2) / 5)).
Proof.
  intros n Hn.
  destruct (Z.ltb_spec 0 n) as [Hp|Hp].
  - assert (Hr : In n (map Z.of_nat (seq 1 (Z.to_nat TOTAL_CARROS)))).
    { apply in_map_iff; exists (Z.to_nat n); split; [lia|].
      apply in_seq; unfold TOTAL_CARROS in *; lia. }
    assert (Hall : forallb (fun k => Z.eqb (tempo_final k)
                     (Z.min T_MAXIMO (Z.max T_MINIMO ((11 * k - 2) / 5))))
                     (map Z.of_nat (seq 1 (Z.to_nat TOTAL_CARROS))) = true)
      by (vm_compute; reflexivity).
    rewrite forallb_forall in Hall; apply Z.eqb_eq, Hall, Hr.
  - assert (Ht : tempo_final n = tempo_final 0).
    { unfold tempo_final, tempo_calculado.
      replace (Z.ltb 0 n) with false by (symmetry; apply Z.ltb_ge; lia).
      reflexivity. }
    rewrite Ht; vm_compute (tempo_final 0).
    assert ((11 * n - 2) / 5 < 0) by (apply Z.div_lt_upper_bound; lia).
    unfold T_MAXIMO, T_MINIMO; lia.
Qed.

Lemma tempo_final_formula_exata_witness :
  7 <= TOTAL_CARROS /\ tempo_final 7 = 15.
Proof.
  split; [vm_compute; discriminate|].
  rewrite (tempo_final_formula_exata 7) by (vm_compute; discriminate).
  vm_compute; reflexivity.
Defined.

Lemma atribuir_ids_nth : forall ordem cont j d,
  length cont = Z.to_nat NUM_DIRECOES -> Forall direcao_valida ordem ->
  nth_error ordem j = Some d ->
  nth_error (atribuir_ids cont ordem) j = Some (ler cont d + conta_direcao d (firstn j ordem)).
Proof.
  induction ordem as [|d0 r IH]; intros cont j d Hl Hv Hj; [destruct j; discriminate|].
  inversion Hv as [|? ? Hd0 Hr]; subst.
  destruct j as [|j]; simpl in Hj |- *.
  - injection Hj as <-; unfold conta_direcao; simpl; f_equal; lia.
  - assert (Hd : direcao_valida d).
    { apply nth_error_In in Hj; rewrite Forall_forall in Hr; auto. }
    rewrite (IH _ j d) by (try (unfold escrever; rewrite escrever_nat_length); auto).
    rewrite ler_escrever by auto.
    unfold conta_direcao; simpl.
    destruct (Z.eqb_spec d0 d) as [->|Hne]; [rewrite Z.eqb_refl|];
      [|destruct (Z.eqb_spec d d0); [congruence|]]; simpl; f_equal; lia.
Qed.

Lemma conta_direcao_firstn_mono : forall d l n m, (n <= m)%nat ->
  conta_direcao d (firstn n l) <= conta_direcao d (firstn m l).
Proof.
  unfold conta_direcao; intros d l; induction l as [|x l IH]; intros n m Hnm.
  - rewrite !firstn_nil; lia.
  - destruct n as [|n], m as [|m]; simpl; try lia.
    specialize (IH n m ltac:(lia)).
    destruct (Z.eqb d x); simpl; lia.
Qed.

Lemma conta_direcao_firstn_S : forall d l j,
  nth_error l j = Some d ->
  conta_direcao d (firstn (S j) l) = conta_direcao d (firstn j l) + 1.
Proof.
  unfold conta_direcao; intros d l; induction l as [|x l IH]; intros j Hj;
    [destruct j; discriminate|].
  destruct j as [|j]; simpl in Hj |- *.
  - injection Hj as ->; rewrite Z.eqb_refl; simpl; lia.
  - specialize (IH j Hj); simpl in IH.
    destruct (Z.eqb d x); simpl; lia.
Qed.

(** X8: whatever order the threads of one kind take [lock_contadores_id]
    in, the thread at position [j] of that order gets as [id] one plus the
    number of earlier threads of its direction, so ids of one direction are
    [1, 2, 3, ...] and no two threads of the same direction share an id. *)
Theorem ids_por_direcao : forall ordem,
  Forall direcao_valida ordem ->
  forall j d, nth_error ordem j = Some d ->
  nth_error (atribuir_ids contadores_id_iniciais ordem) j =
    Some (1 + conta_direcao d (firstn j ordem)) /\
  (forall k, k <> j -> nth_error ordem k = Some d ->
   nth_error (atribuir_ids contadores_id_iniciais ordem) k <>
   nth_error (atribuir_ids contadores_id_iniciais ordem) j).
Proof.
  intros ordem Hv j d Hj.
  assert (Hl : length contadores_id_iniciais = Z.to_nat NUM_DIRECOES)
    by apply repeat_length.
  assert (Hd : direcao_valida d)
    by (apply nth_error_In in Hj; rewrite Forall_forall in Hv; auto).
  assert (H1 : ler contadores_id_iniciais d = 1).
  { unfold direcao_valida, NUM_DIRECOES in Hd; unfold ler, contadores_id_iniciais.
    rewrite nth_repeat_lt by (unfold NUM_DIRECOES; lia); reflexivity. }
  rewrite (atribuir_ids_nth ordem _ j d Hl Hv Hj), H1.
  split; [reflexivity|].
  intros k Hkj Hk; rewrite (atribuir_ids_nth ordem _ k d Hl Hv Hk), H1.
  intro E; assert (E' : 1 + conta_direcao d (firstn k ordem) = 1 + conta_direcao d (firstn j ordem))
    by congruence; clear E.
  destruct (Nat.lt_ge_cases k j) as [Hlt|Hge].
  - pose proof (conta_direcao_firstn_S d ordem k Hk).
    pose proof (conta_direcao_firstn_mono d ordem (S k) j Hlt); lia.
  - pose proof (conta_direcao_firstn_S d ordem j Hj).
    assert (Hsj : (S j <= k)%nat) by lia.
    pose proof (conta_direcao_firstn_mono d ordem (S j) k Hsj); lia.
Qed.

Lemma ids_por_direcao_witness :
  Forall direcao_valida [NORTE; LESTE; NORTE; NORTE] /\
  nth_error [NORTE; LESTE; NORTE; NORTE] 3 = Some NORTE /\
  nth_error (atribuir_ids contadores_id_iniciais [NORTE; LESTE; NORTE; NORTE]) 3 = Some 3.
Proof.
  assert (Hv : Forall direcao_valida [NORTE; LESTE; NORTE; NORTE])
    by (apply Forall_forall; intros x Hx; unfold direcao_valida, NUM_DIRECOES;
        simpl in Hx; destruct Hx as [<-|[<-|[<-|[<-|[]]]]]; unfold NORTE, LESTE; lia).
  assert (Hj : nth_error [NORTE; LESTE; NORTE; NORTE] 3 = Some NORTE) by reflexivity.
  split; [exact Hv|]; split; [exact Hj|].
  rewrite (proj1 (ids_por_direcao _ Hv 3 NORTE Hj)); vm_compute; reflexivity.
Defined.

Lemma In_substituir_inv : forall (l : list Veiculo) n x v,
  In v l -> In v (substituir l n x) \/ nth_error l n = Some v.
Proof.
  induction l as [|y l IH]; intros [|n] x v Hin; simpl in *; try contradiction.
  - destruct Hin as [->|Hin]; auto.
  - destruct Hin as [->|Hin]; auto.
    destruct (IH n x v Hin); auto.
Qed.

Lemma In_substituir_nth : forall (l : list Veiculo) n x y,
  nth_error l n = Some y -> In x (substituir l n x).
Proof.
  induction l as [|z l IH]; intros [|n] x y Hn; simpl in *; try discriminate; auto.
  right; eapply IH; eassumption.
Qed.

(** X9: the emergency flag is never left set without an ambulance behind
    it: in every reachable state where [modo_emergencia] is true, some
    ambulance thread has announced itself and not yet left the
    intersection (it is queued, blocked in its admission loop or crossing).
    In particular, with no ambulance threads the flag is never set. *)
Theorem emergencia_tem_ambulancia : forall pop w,
  alcancavel pop w -> modo_emergencia (cruzamento w) = true ->
  exists v, In v (veiculos w) /\ tipo v = TIPO_AMBULANCIA /\ pc v <> Aproximando.
Proof.
  intros pop w H; induction H as [|w a w' Hw IH Hp]; intro Hm; [discriminate|].
  destruct a as [|n]; simpl in Hp.
  - destruct (passo_controlador (cruzamento w) (controlador w)) as [[c' p']|] eqn:E;
      [|discriminate].
    injection Hp as <-; simpl in *.
    destruct (passo_controlador_escrita _ _ _ _ E) as [->|[_ [e ->]]]; exact (IH Hm).
  - destruct (nth_error (veiculos w) n) as [x|] eqn:Hn; [|discriminate].
    destruct x as [t d p].
    destruct (passo_veiculo (cruzamento w) (mkVeiculo t d p)) as [[c' p']|] eqn:E;
      [|discriminate].
    injection Hp as <-; simpl in *.
    destruct t, p; unfold passo_veiculo in E; simpl in E;
      repeat match type of E with
      | context [if ?b then _ else _] => destruct b
      end;
      try discriminate; injection E as <- <-; simpl in Hm;
      first
        [ discriminate Hm
        | eexists; split; [eapply In_substituir_nth; eassumption
                          | split; [reflexivity | discriminate]]
        | destruct (IH Hm) as [v [Hin [Ht Hpc]]]; exists v;
          match goal with
          | |- context [substituir ?l ?k ?x] =>
              destruct (In_substituir_inv l k x v Hin) as [H'|H']
          end;
          [ auto
          | rewrite Hn in H'; injection H' as <-; simpl in Ht; discriminate ] ].
Qed.

Lemma emergencia_tem_ambulancia_witness :
  (alcancavel populacao_main (apos [Veic 34]) /\
   modo_emergencia (cruzamento (apos [Veic 34])) = true) /\
  exists v, In v (veiculos (apos [Veic 34])) /\ tipo v = TIPO_AMBULANCIA /\
            pc v <> Aproximando.
Proof.
  assert (Hw : alcancavel populacao_main (apos [Veic 34]))
    by (apply apos_alcancavel; vm_compute; discriminate).
  assert (Hm : modo_emergencia (cruzamento (apos [Veic 34])) = true)
    by (vm_compute; reflexivity).
  split; [split; assumption|].
  exact (emergencia_tem_ambulancia populacao_main _ Hw Hm).
Defined.

(** X10: a step of [fluxo_trafego] never touches the vehicle threads, the
    queues, the occupancy counters or the emergency flag; the only field it
    ever writes is [estado_atual], and it changes it only when
    [carros_no_cruzamento] is not positive. *)
Theorem controlador_so_escreve_estado : forall w w',
  passo w Controlador = Some w' ->
  veiculos w' = veiculos w /\
  carros_esperando (cruzamento w') = carros_esperando (cruzamento w) /\
  ambulancias_esperando (cruzamento w') = ambulancias_esperando (cruzamento w) /\
  carros_no_cruzamento (cruzamento w') = carros_no_cruzamento (cruzamento w) /\
  ambulancias_no_cruzamento (cruzamento w') = ambulancias_no_cruzamento (cruzamento w) /\
  modo_emergencia (cruzamento w') = modo_emergencia (cruzamento w) /\
  (estado_atual (cruzamento w') <> estado_atual (cruzamento w) ->
   carros_no_cruzamento (cruzamento w) <= 0).
Proof.
  intros w w' Hp; simpl in Hp.
  destruct (passo_controlador (cruzamento w) (controlador w)) as [[c' p']|] eqn:E;
    [|discriminate].
  injection Hp as <-; simpl.
  destruct (passo_controlador_escrita _ _ _ _ E) as [->|[Hle [e ->]]].
  - repeat split; intro H; contradiction.
  - repeat split; intros _; exact Hle.
Qed.

Lemma controlador_so_escreve_estado_witness :
  passo (apos [Veic 0; Veic 0]) Controlador = Some (apos [Veic 0; Veic 0; Controlador]) /\
  estado_atual (cruzamento (apos [Veic 0; Veic 0; Controlador])) = FLUXO_NS /\
  carros_no_cruzamento (cruzamento (apos [Veic 0; Veic 0; Controlador])) = 0.
Proof.
  assert (Hp : passo (apos [Veic 0; Veic 0]) Controlador =
               Some (apos [Veic 0; Veic 0; Controlador])) by (vm_compute; reflexivity).
  split; [exact Hp|].
  destruct (controlador_so_escreve_estado _ _ Hp) as (_ & _ & _ & Hc & _).
  rewrite Hc; split; vm_compute; reflexivity.
Defined.

Lemma nth_error_substituir_outro : forall (l : list Veiculo) n x k,
  k <> n -> nth_error (substituir l n x) k = nth_error l k.
Proof.
  induction l as [|y l IH]; intros [|n] x [|k] Hk; simpl; auto; try lia.
  all: apply IH; lia.
Qed.

Lemma length_substituir : forall (l : list Veiculo) n x,
  length (substituir l n x) = length l.
Proof. induction l as [|y l IH]; intros [|n] x; simpl; auto. Qed.

(** X11: a step of a vehicle thread never touches the controller, the
    current flow or any other vehicle thread; a car thread never touches the
    ambulance queues, the ambulance counter or the emergency flag, and an
    ambulance thread never touches the car queues or the car counter. *)
Theorem veiculo_escritas_separadas : forall w n w',
  passo w (Veic n) = Some w' ->
  controlador w' = controlador w /\
  estado_atual (cruzamento w') = estado_atual (cruzamento w) /\
  length (veiculos w') = length (veiculos w) /\
  (forall k, k <> n -> nth_error (veiculos w') k = nth_error (veiculos w) k) /\
  exists v, nth_error (veiculos w) n = Some v /\
  (tipo v = TIPO_CARRO ->
     ambulancias_esperando (cruzamento w') = ambulancias_esperando (cruzamento w) /\
     ambulancias_no_cruzamento (cruzamento w') = ambulancias_no_cruzamento (cruzamento w) /\
     modo_emergencia (cruzamento w') = modo_emergencia (cruzamento w)) /\
  (tipo v = TIPO_AMBULANCIA ->
     carros_esperando (cruzamento w') = carros_esperando (cruzamento w) /\
     carros_no_cruzamento (cruzamento w') = carros_no_cruzamento (cruzamento w)).
Proof.
  intros w n w' Hp; simpl in Hp.
  destruct (nth_error (veiculos w) n) as [x|] eqn:Hn; [|discriminate].
  destruct (passo_veiculo (cruzamento w) x) as [[c' p']|] eqn:E; [|discriminate].
  injection Hp as <-; simpl.
  split; [reflexivity|].
  split; [exact (proj1 (passo_veiculo_estado _ _ _ _ E))|].
  split; [apply length_substituir|].
  split; [intros k Hk; apply nth_error_substituir_outro; exact Hk|].
  exists x; split; [reflexivity|].
  destruct x as [t d p]; simpl.
  destruct t, p; unfold passo_veiculo in E; simpl in E;
    repeat match type of E with
    | context [if ?b then _ else _] => destruct b
    end;
    try discriminate; injection E as <- <-;
    split; intro Ht; try discriminate Ht; repeat split.
Qed.

Lemma veiculo_escritas_separadas_witness :
  passo (apos [Veic 0]) (Veic 34) = Some (apos [Veic 0; Veic 34]) /\
  carros_no_cruzamento (cruzamento (apos [Veic 0; Veic 34])) = 1.
Proof.
  assert (Hp : passo (apos [Veic 0]) (Veic 34) = Some (apos [Veic 0; Veic 34]))
    by (vm_compute; reflexivity).
  split; [exact Hp|].
  destruct (veiculo_escritas_separadas _ _ _ Hp) as (_ & _ & _ & _ & v & Hv & _ & Ha).
  assert (Ht : tipo v = TIPO_AMBULANCIA)
    by (vm_compute in Hv; injection Hv as <-; reflexivity).
  rewrite (proj2 (Ha Ht)); vm_compute; reflexivity.
Defined.

(** X12: if [main] creates no ambulance thread, the program never leaves
    normal operation: the emergency flag stays false, the controller never
    enters the emergency branch, and the current flow is always a car flow
    ([FLUXO_NS] or [FLUXO_LO]). *)
Theorem sem_ambulancias_modo_normal : forall pop w,
  Forall (fun td => fst td = TIPO_CARRO) pop -> alcancavel pop w ->
  modo_emergencia (cruzamento w) = false /\
  fluxo_normal (estado_atual (cruzamento w)) = true /\
  controlador w <> CtlEmDreno /\ controlador w <> CtlEmEspera.
Proof.
  intros pop w Hpop Hw.
  enough (Forall (fun v => tipo v = TIPO_CARRO) (veiculos w) /\
          modo_emergencia (cruzamento w) = false /\
          fluxo_normal (estado_atual (cruzamento w)) = true /\
          controlador w <> CtlEmDreno /\ controlador w <> CtlEmEspera) by tauto.
  induction Hw as [|w a w' Hw IH Hp].
  - simpl; split.
    + apply Forall_map; eapply Forall_impl; [|exact Hpop]; intros [t d]; simpl; auto.
    + repeat split; discriminate.
  - destruct IH as (Hv & Hm & Hf & Hd & He).
    destruct a as [|n]; simpl in Hp.
    + destruct (passo_controlador (cruzamento w) (controlador w)) as [[c' p']|] eqn:E;
        [|discriminate].
      injection Hp as <-; simpl.
      destruct (controlador w); try congruence; simpl in E; rewrite ?Hm in E;
        unfold ctl_decide_normal, decide_normal in E;
        repeat match type of E with
        | context [if ?b then _ else _] => destruct b
        end;
        try discriminate; injection E as <- <-; simpl;
        repeat split; auto; discriminate.
    + destruct (nth_error (veiculos w) n) as [x|] eqn:Hn; [|discriminate].
      pose proof (Forall_nth_error _ _ _ _ Hv Hn) as Ht.
      destruct x as [t d p]; simpl in Ht; subst t.
      destruct (passo_veiculo (cruzamento w) (mkVeiculo TIPO_CARRO d p)) as [[c' p']|] eqn:E;
        [|discriminate].
      injection Hp as <-; simpl.
      destruct p; unfold passo_veiculo in E; simpl in E;
        repeat match type of E with
        | context [if ?b then _ else _] => destruct b
        end;
        try discriminate; injection E as <- <-; simpl;
        (split; [apply Forall_substituir; auto|]); repeat split; auto.
Qed.

Lemma sem_ambulancias_modo_normal_witness :
  let pop := [(TIPO_CARRO, NORTE); (TIPO_CARRO, LESTE); (TIPO_CARRO, LESTE)] in
  let w := match executar (mundo_inicial pop)
                   [Veic 1; Veic 2; Veic 0; Controlador; Veic 0; Controlador; Veic 1; Veic 2] with
           | Some x => x
           | None => mundo_inicial pop
           end in
  (Forall (fun td => fst td = TIPO_CARRO) pop /\ alcancavel pop w) /\
  modo_emergencia (cruzamento w) = false /\
  fluxo_normal (estado_atual (cruzamento w)) = true.
Proof.
  intros pop w.
  assert (Hpop : Forall (fun td => fst td = TIPO_CARRO) pop) by (repeat constructor).
  assert (Hw : alcancavel pop w).
  { apply (executar_alcancavel pop
             [Veic 1; Veic 2; Veic 0; Controlador; Veic 0; Controlador; Veic 1; Veic 2]
             (mundo_inicial pop)); [exact (alc_inicial pop) | vm_compute; reflexivity]. }
  split; [split; assumption|].
  destruct (sem_ambulancias_modo_normal pop w Hpop Hw) as (Hm & Hf & _).
  split; assumption.
Defined.

Lemma map_substituir : forall {B} (f : Veiculo -> B) l n x y,
  nth_error l n = Some y -> f x = f y -> map f (substituir l n x) = map f l.
Proof.
  intros B f l; induction l as [|z l IH]; intros [|n] x y Hn Hf; simpl in *;
    try discriminate.
  - injection Hn as ->; rewrite Hf; reflexivity.
  - f_equal; eapply IH; eassumption.
Qed.

(** The kind and direction of every thread are those [main] created it
    with. *)
Lemma perfil_alcancavel : forall pop w,
  alcancavel pop w -> map (fun v => (tipo v, direcao v)) (veiculos w) = pop.
Proof.
  intros pop w H; induction H as [|w a w' Hw IH Hp].
  - simpl; rewrite map_map; simpl.
    induction pop as [|[t d] pop IHp]; simpl; [reflexivity|]; f_equal; exact IHp.
  - destruct a as [|n]; simpl in Hp.
    + destruct (passo_controlador (cruzamento w) (controlador w)) as [[c' p']|];
        [|discriminate].
      injection Hp as <-; exact IH.
    + destruct (nth_error (veiculos w) n) as [x|] eqn:Hn; [|discriminate].
      destruct (passo_veiculo (cruzamento w) x) as [[c' p']|]; [|discriminate].
      injection Hp as <-; simpl.
      rewrite (map_substituir _ _ _ _ x Hn); [exact IH | reflexivity].
Qed.

Lemma pode_passar_ambulancia_no_eixo : forall m d e,
  eixo_direcao d = Some (eixo_fluxo e) -> pode_passar m d e TIPO_AMBULANCIA = true.
Proof.
  intros m d e Hx.
  destruct (direcao_casos d) as [->|[->|[->|[->|(h0 & h1 & h2 & h3)]]]];
    destruct m, e; unfold pode_passar, eixo_direcao in *;
    rewrite ?h0, ?h1, ?h2, ?h3 in *; simpl in *; congruence.
Qed.

Lemma passo_veiculo_nth : forall w k v,
  nth_error (veiculos w) k = Some v -> passo_veiculo (cruzamento w) v <> None ->
  exists w', passo w (Veic k) = Some w'.
Proof.
  intros w k v Hk Hv; simpl; rewrite Hk.
  destruct (passo_veiculo (cruzamento w) v) as [[c' p']|]; [|congruence].
  eexists; reflexivity.
Qed.

Lemma passo_controlador_livre : forall w,
  passo_controlador (cruzamento w) (controlador w) <> None ->
  exists w', passo w Controlador = Some w'.
Proof.
  intros w H; simpl.
  destruct (passo_controlador (cruzamento w) (controlador w)) as [[c' p']|]; [|congruence].
  eexists; reflexivity.
Qed.

(** X13: with at least one ambulance thread on each axis (as [main]
    creates), the program never deadlocks: in every reachable state some
    thread can take a step.  The controller can only be blocked in a drain
    loop while a car is crossing (and that car can leave), or in the passive
    emergency wait under an ambulance flow (and the ambulance of that axis
    can move). *)
Theorem sempre_ha_passo : forall pop w,
  (exists d, In (TIPO_AMBULANCIA, d) pop /\ eixo_direcao d = Some EixoNS) ->
  (exists d, In (TIPO_AMBULANCIA, d) pop /\ eixo_direcao d = Some EixoLO) ->
  alcancavel pop w -> exists a w', passo w a = Some w'.
Proof.
  intros pop w Hns Hlo Hw.
  pose proof (fase_coerente_alcancavel pop w Hw) as Hf.
  pose proof (perfil_alcancavel pop w Hw) as Hperf.
  (* a car inside the intersection can always leave *)
  assert (Hcarro : 0 < carros_no_cruzamento (cruzamento w) ->
                   exists a w', passo w a = Some w').
  { intro Hpos; rewrite (carros_no_cruzamento_conta pop w Hw) in Hpos.
    unfold carros_atravessando in Hpos.
    destruct (filter eh_carro_atravessando (veiculos w)) as [|v r] eqn:Ef;
      [simpl in Hpos; lia|].
    assert (Hin : In v (filter eh_carro_atravessando (veiculos w))) by (rewrite Ef; left; auto).
    apply filter_In in Hin; destruct Hin as [Hin Hv].
    apply In_nth_error in Hin; destruct Hin as [k Hk].
    exists (Veic k).
    destruct v as [[|] d [| | |]]; try discriminate Hv.
    eapply passo_veiculo_nth; [exact Hk | discriminate]. }
  destruct (controlador w) eqn:Hc.
  - exists Controlador; apply (passo_controlador_livre w); rewrite Hc; simpl.
    destruct (modo_emergencia _), (Z.gtb _ _); discriminate.
  - destruct (Z.gtb_spec (carros_no_cruzamento (cruzamento w)) 0) as [Hpos|Hle];
      [exact (Hcarro Hpos)|].
    exists Controlador; apply (passo_controlador_livre w); rewrite Hc; simpl.
    replace (Z.gtb _ 0) with false by (symmetry; rewrite Z.gtb_ltb; apply Z.ltb_ge; lia).
    discriminate.
  - unfold fase_coerente in Hf; rewrite Hc in Hf.
    destruct (modo_emergencia (cruzamento w)) eqn:Hm.
    2: { exists Controlador; apply (passo_controlador_livre w); rewrite Hc; simpl.
         rewrite Hm; discriminate. }
    assert (Hamb : exists d, In (TIPO_AMBULANCIA, d) pop /\
                   eixo_direcao d = Some (eixo_fluxo (estado_atual (cruzamento w)))).
    { destruct (estado_atual (cruzamento w)); simpl in Hf |- *;
        try discriminate; assumption. }
    destruct Hamb as [d [Hd Hx]].
    rewrite <- Hperf in Hd; apply in_map_iff in Hd; destruct Hd as [v [Hvd Hv]].
    apply In_nth_error in Hv; destruct Hv as [k Hk].
    exists (Veic k).
    destruct v as [t d' p]; simpl in Hvd; injection Hvd as -> ->.
    destruct p.
    + eapply passo_veiculo_nth; [exact Hk | discriminate].
    + eapply passo_veiculo_nth; [exact Hk | unfold passo_veiculo; simpl].
      destruct (pode_passar _ _ _ _); discriminate.
    + eapply passo_veiculo_nth; [exact Hk | unfold passo_veiculo; simpl].
      rewrite pode_passar_ambulancia_no_eixo by exact Hx; discriminate.
    + eapply passo_veiculo_nth; [exact Hk | discriminate].
  - destruct (Z.gtb_spec (carros_no_cruzamento (cruzamento w)) 0) as [Hpos|Hle];
      [exact (Hcarro Hpos)|].
    exists Controlador; apply (passo_controlador_livre w); rewrite Hc; simpl.
    replace (Z.gtb _ 0) with false by (symmetry; rewrite Z.gtb_ltb; apply Z.ltb_ge; lia).
    discriminate.
  - exists Controlador; apply (passo_controlador_livre w); rewrite Hc; simpl.
    repeat match goal with
    | |- context [if ?b then _ else _] => destruct b
    end; discriminate.
Qed.

Lemma sempre_ha_passo_witness :
  ((exists d, In (TIPO_AMBULANCIA, d) populacao_main /\ eixo_direcao d = Some EixoNS) /\
   (exists d, In (TIPO_AMBULANCIA, d) populacao_main /\ eixo_direcao d = Some EixoLO) /\
   alcancavel populacao_main (apos agenda_colisao)) /\
  exists a w', passo (apos agenda_colisao) a = Some w'.
Proof.
  assert (Hns : exists d, In (TIPO_AMBULANCIA, d) populacao_main /\
                eixo_direcao d = Some EixoNS).
  { exists NORTE; split; [apply nth_error_In with (n := 34%nat); reflexivity | reflexivity]. }
  assert (Hlo : exists d, In (TIPO_AMBULANCIA, d) populacao_main /\
                eixo_direcao d = Some EixoLO).
  { exists LESTE; split; [apply nth_error_In with (n := 37%nat); reflexivity | reflexivity]. }
  assert (Hw : alcancavel populacao_main (apos agenda_colisao))
    by (apply apos_alcancavel; vm_compute; discriminate).
  split; [split; [exact Hns | split; [exact Hlo | exact Hw]]|].
  exact (sempre_ha_passo populacao_main _ Hns Hlo Hw).
Defined.

Lemma executar_app : forall w l1 l2,
  executar w (l1 ++ l2) =
  match executar w l1 with Some w' => executar w' l2 | None => None end.
Proof.
  intros w l1; revert w; induction l1 as [|a l1 IH]; intros w l2; simpl; [reflexivity|].
  destruct (passo w a); [apply IH | reflexivity].
Qed.

Lemma nth_error_meio : forall (l1 : list Veiculo) x l2,
  nth_error (l1 ++ x :: l2) (length l1) = Some x.
Proof. induction l1 as [|y l1 IH]; intros x l2; simpl; auto. Qed.

Lemma nth_error_meio_k : forall (l1 : list Veiculo) x l2 k,
  length l1 = k -> nth_error (l1 ++ x :: l2) k = Some x.
Proof. intros l1 x l2 k <-; apply nth_error_meio. Qed.

Lemma substituir_meio : forall (l1 : list Veiculo) x l2 y,
  substituir (l1 ++ x :: l2) (length l1) y = l1 ++ y :: l2.
Proof. induction l1 as [|z l1 IH]; intros x l2 y; simpl; f_equal; auto. Qed.

Lemma substituir_meio_k : forall (l1 : list Veiculo) x l2 y k,
  length l1 = k -> substituir (l1 ++ x :: l2) k y = l1 ++ y :: l2.
Proof. intros l1 x l2 y k <-; apply substituir_meio. Qed.

Lemma skipn_nth_error : forall {A} (l : list A) k x,
  nth_error l k = Some x -> skipn k l = x :: skipn (S k) l.
Proof.
  intros A l; induction l as [|y l IH]; intros [|k] x Hk; simpl in *; try discriminate.
  - injection Hk as ->; reflexivity.
  - apply IH; exact Hk.
Qed.

Lemma firstn_nth_error_S : forall {A} (l : list A) k x,
  nth_error l k = Some x -> firstn (S k) l = firstn k l ++ [x].
Proof.
  intros A l; induction l as [|y l IH]; intros [|k] x Hk; simpl in *; try discriminate.
  - injection Hk as ->; reflexivity.
  - f_equal; apply IH; exact Hk.
Qed.

(** Under an ambulance flow with the emergency flag set, every car thread
    that arrives enqueues itself and blocks. *)
Lemma carros_chegam : forall a resto k c,
  Forall (fun td => fst td = TIPO_CARRO) resto -> (k <= length resto)%nat ->
  modo_emergencia c = true -> estado_atual c = AMBULANCIA_NS ->
  exists c', executar (mkMundo c CtlEmEspera (a :: map (veiculo_em Aproximando) resto))
                      (map Veic (seq 1 k)) =
             Some (mkMundo c' CtlEmEspera
                     (a :: map (veiculo_em Esperando) (firstn k resto) ++
                           map (veiculo_em Aproximando) (skipn k resto))) /\
             modo_emergencia c' = true /\ estado_atual c' = AMBULANCIA_NS.
Proof.
  intros a resto k c Hr; induction k as [|k IH]; intros Hk Hm He.
  - exists c; simpl; auto.
  - destruct (IH ltac:(lia) Hm He) as [c1 [Hex [Hm1 He1]]].
    destruct (nth_error resto k) as [td|] eqn:Htd;
      [|apply nth_error_None in Htd; lia].
    rewrite seq_S, map_app, executar_app, Hex.
    rewrite (skipn_nth_error _ _ _ Htd), (firstn_nth_error_S _ _ _ Htd), map_app.
    assert (Hc : fst td = TIPO_CARRO)
      by (rewrite Forall_forall in Hr; apply Hr; eapply nth_error_In; exact Htd).
    assert (Hlen : length (map (veiculo_em Esperando) (firstn k resto)) = k)
      by (rewrite length_map, length_firstn; lia).
    remember (map (veiculo_em Esperando) (firstn k resto)) as L1.
    remember (map (veiculo_em Aproximando) (skipn (S k) resto)) as L2.
    change (1 + k)%nat with (S k).
    cbn [map executar passo nth_error veiculos cruzamento controlador].
    rewrite (nth_error_meio_k _ _ _ _ Hlen).
    destruct td as [t d]; simpl in Hc; subst t.
    change (veiculo_em Aproximando (TIPO_CARRO, d)) with (mkVeiculo TIPO_CARRO d Aproximando).
    cbn [passo_veiculo tipo pc direcao].
    cbn [set_carros_esperando modo_emergencia estado_atual].
    unfold pode_passar; rewrite Hm1, He1; cbn.
    rewrite (substituir_meio_k _ _ _ _ _ Hlen).
    eexists; split; [subst L2; rewrite <- app_assoc; reflexivity|].
    split; [exact Hm1 | exact He1].
Qed.

(** X14: the emergency branch can deadlock the program when all ambulances
    come from the East/West axis: an ambulance sets [modo_emergencia] and
    only enqueues after its [sleep(1)]; if the controller decides in that
    gap, both ambulance demands are 0, the tie [demanda_amb_ns >=
    demanda_amb_lo] selects [AMBULANCIA_NS], and the controller waits for the
    flag to clear.  The ambulance then blocks (wrong axis), every car blocks
    (ambulance flow), and no thread can ever take a step again.  This holds
    for one East or West ambulance together with any set of car threads. *)
Theorem impasse_ambulancia_lo : forall d resto,
  eixo_direcao d = Some EixoLO ->
  Forall (fun td => fst td = TIPO_CARRO) resto ->
  exists w, alcancavel ((TIPO_AMBULANCIA, d) :: resto) w /\
            controlador w = CtlEmEspera /\
            estado_atual (cruzamento w) = AMBULANCIA_NS /\
            forall a, passo w a = None.
Proof.
  intros d resto Hd Hr.
  assert (Hd' : d = LESTE \/ d = OESTE).
  { destruct (direcao_casos d) as [->|[->|[->|[->|(h0 & h1 & h2 & h3)]]]];
      unfold eixo_direcao in Hd; rewrite ?h0, ?h1, ?h2, ?h3 in Hd; simpl in Hd;
      try discriminate; auto. }
  set (pop := (TIPO_AMBULANCIA, d) :: resto).
  set (w0 := mundo_inicial pop).
  set (c1 := set_estado_atual
               (set_ambulancias_esperando (set_modo_emergencia cruzamento_inicial true)
                  (escrever [0; 0; 0; 0] d 1)) AMBULANCIA_NS).
  assert (H3 : executar w0 [Veic 0; Controlador; Veic 0] =
               Some (mkMundo c1 CtlEmEspera
                       (mkVeiculo TIPO_AMBULANCIA d Esperando
                          :: map (veiculo_em Aproximando) resto))).
  { destruct Hd' as [->| ->]; reflexivity. }
  destruct (carros_chegam (mkVeiculo TIPO_AMBULANCIA d Esperando) resto (length resto) c1
              Hr (le_n _) eq_refl eq_refl) as [c' [Hex [Hm He]]].
  rewrite firstn_all, skipn_all, app_nil_r in Hex.
  set (wf := mkMundo c' CtlEmEspera
               (mkVeiculo TIPO_AMBULANCIA d Esperando :: map (veiculo_em Esperando) resto)).
  exists wf.
  split.
  { apply (executar_alcancavel pop ([Veic 0; Controlador; Veic 0] ++
                                    map Veic (seq 1 (length resto))) w0);
      [apply alc_inicial|].
    rewrite executar_app, H3; exact Hex. }
  split; [reflexivity|]; split; [exact He|].
  subst wf; intros [|[|j]]; unfold passo; simpl.
  - rewrite Hm; reflexivity.
  - destruct Hd' as [-> | ->]; unfold passo_veiculo, pode_passar; simpl;
      rewrite ?Hm, ?He; reflexivity.
  - destruct (nth_error (map (veiculo_em Esperando) resto) j) as [v|] eqn:Hv;
      [|reflexivity].
    apply nth_error_In, in_map_iff in Hv; destruct Hv as [[t d''] [<- Hin]].
    rewrite Forall_forall in Hr; pose proof (Hr _ Hin) as Ht; simpl in Ht; subst t.
    unfold veiculo_em, passo_veiculo, pode_passar; simpl; rewrite ?Hm, ?He; reflexivity.
Qed.

Lemma impasse_ambulancia_lo_witness :
  (eixo_direcao LESTE = Some EixoLO /\
   Forall (fun td => fst td = TIPO_CARRO) [(TIPO_CARRO, NORTE); (TIPO_CARRO, OESTE)]) /\
  exists w, alcancavel [(TIPO_AMBULANCIA, LESTE); (TIPO_CARRO, NORTE); (TIPO_CARRO, OESTE)] w /\
            controlador w = CtlEmEspera /\
            estado_atual (cruzamento w) = AMBULANCIA_NS /\
            forall a, passo w a = None.
Proof.
  assert (Hd : eixo_direcao LESTE = Some EixoLO) by reflexivity.
  assert (Hr : Forall (fun td => fst td = TIPO_CARRO) [(TIPO_CARRO, NORTE); (TIPO_CARRO, OESTE)])
    by (repeat constructor).
  split; [split; assumption|].
  exact (impasse_ambulancia_lo LESTE _ Hd Hr).
Defined.
